(** * HHL-Medical-imaging: ART and HHL reconstruction of a 2x2 phantom

    A shallow embedding of the notebook [HHL-Medical-imaging.ipynb].

    Numbers.  The notebook computes with numpy [float64] and [complex128].
    The numeric code is embedded once, over a carrier [T] with the operations
    of the class [Num], and read at two instances:
    - [float], IEEE binary64 (Rocq's primitive floats): the program as it
      runs, used to evaluate it on concrete inputs and to observe the special
      values (NaN, infinities) that numpy produces where Python would raise;
    - [R], the exact reals: the arithmetic the notebook approximates, used
      for the algebraic facts.  Rounding error is not analysed.

    Exceptions.  Python exceptions are an explicit outcome [Raise e] of the
    type [result]; numpy's element-wise division never raises (it warns and
    returns NaN or an infinity), so it is a total operation of [Num].

    Qiskit.  The circuit is a list of instructions built by the notebook's
    subroutines; the meaning of a gate on a statevector is Qiskit's: qubit
    [q] is bit [q] of the basis index (little-endian). *)

From Stdlib Require Import Ascii String.
From Stdlib Require Import List Bool Arith ZArith NArith Lia.
From Stdlib Require Import Reals Lra Floats FunctionalExtensionality.
Import ListNotations.


(** ** Python outcomes *)

Inductive pyexn : Type :=
| IndexError
| ValueError
| ZeroDivisionError.

Inductive result (A : Type) : Type :=
| Ok (a : A)
| Raise (e : pyexn).

Arguments Ok {A} a.
Arguments Raise {A} e.

Definition bind {A B : Type} (c : result A) (k : A -> result B) : result B :=
  match c with
  | Ok a => k a
  | Raise e => Raise e
  end.

Notation "x <- c ;; k" := (bind c (fun x => k))
  (at level 61, c at next level, right associativity).

(** [for i in l: s = body i s] *)
Fixpoint for_each {S : Type} (l : list nat) (body : nat -> S -> result S)
  (s : S) : result S :=
  match l with
  | [] => Ok s
  | i :: l' => s' <- body i s ;; for_each l' body s'
  end.

(** [for _ in range(n): s = body s] *)
Fixpoint repeat_n {S : Type} (n : nat) (body : S -> result S) (s : S)
  : result S :=
  match n with
  | O => Ok s
  | Datatypes.S n' => s' <- body s ;; repeat_n n' body s'
  end.

(** [range(n)] *)
Definition range (n : nat) : list nat := seq 0 n.

(** [l[i]] on a Python list or along the first axis of an array. *)
Definition getitem {A : Type} (l : list A) (i : nat) : result A :=
  match nth_error l i with
  | Some a => Ok a
  | None => Raise IndexError
  end.

(** ** The numeric carrier *)

Class Num (T : Type) : Type := {
  zero : T;
  one : T;
  add : T -> T -> T;
  sub : T -> T -> T;
  mul : T -> T -> T;
  div : T -> T -> T;       (* numpy division: total *)
  gtb : T -> T -> bool;    (* [x > y] *)
  ltb : T -> T -> bool;    (* [x < y] *)
  absv : T -> T;
  sqrtv : T -> T;
  of_int : Z -> T;         (* a Python int used as a float *)
  math_pi : T              (* [math.pi] *)
}.

Definition float_of_int (z : Z) : float :=
  match z with
  | Zneg p => PrimFloat.opp (PrimFloat.of_uint63 (Uint63.of_Z (Zpos p)))
  | _ => PrimFloat.of_uint63 (Uint63.of_Z z)
  end.

#[export] Instance Num_float : Num float := {
  zero := 0%float;
  one := 1%float;
  add := PrimFloat.add;
  sub := PrimFloat.sub;
  mul := PrimFloat.mul;
  div := PrimFloat.div;
  gtb := fun x y => PrimFloat.ltb y x;
  ltb := PrimFloat.ltb;
  absv := PrimFloat.abs;
  sqrtv := PrimFloat.sqrt;
  of_int := float_of_int;
  math_pi := 0x1.921fb54442d18p+1%float
}.

Definition Rgtb (x y : R) : bool := if Rlt_dec y x then true else false.
Definition Rltb (x y : R) : bool := if Rlt_dec x y then true else false.

#[export] Instance Num_R : Num R := {
  zero := 0%R;
  one := 1%R;
  add := Rplus;
  sub := Rminus;
  mul := Rmult;
  div := Rdiv;
  gtb := Rgtb;
  ltb := Rltb;
  absv := Rabs;
  sqrtv := R_sqrt.sqrt;
  of_int := IZR;
  math_pi := PI
}.

(** ** numpy arrays: one axis is a list, two axes a list of rows *)

Section Arrays.
Context {T : Type} `{Num T}.

Definition vector : Type := list T.
Definition matrix : Type := list (list T).

(** [np.zeros(n)] *)
Definition zeros (n : nat) : vector := repeat zero n.

(** The sum of the products, accumulated from the left. *)
Definition dotv (u v : vector) : T :=
  fold_left (fun acc p => add acc (mul (fst p) (snd p))) (combine u v) zero.

(** [u.dot(v)]: the shapes must agree. *)
Definition dot (u v : vector) : result T :=
  if Nat.eqb (length u) (length v) then Ok (dotv u v) else Raise ValueError.

(** [s * v] *)
Definition scale (s : T) (v : vector) : vector := map (mul s) v.

Definition vadd (u v : vector) : vector :=
  map (fun p => add (fst p) (snd p)) (combine u v).

(** [u += v] on arrays of one axis; a [v] of length 1 is broadcast. *)
Definition iadd (u v : vector) : result vector :=
  if Nat.eqb (length u) (length v) then Ok (vadd u v)
  else match v with
       | [c] => Ok (map (fun a => add a c) u)
       | _ => Raise ValueError
       end.

(** [v / s] *)
Definition vdiv (v : vector) (s : T) : vector := map (fun a => div a s) v.

(** The number of columns of a list of rows. *)
Definition ncols (A : matrix) : nat :=
  match A with
  | [] => 0
  | r :: _ => length r
  end.

Definition column (A : matrix) (j : nat) : vector :=
  map (fun r => nth j r zero) A.

(** [A.T] *)
Definition transpose (A : matrix) : matrix :=
  map (column A) (range (ncols A)).

Definition is_matrix (m n : nat) (A : matrix) : Prop :=
  length A = m /\ Forall (fun r => length r = n) A.

(** ** Algebraic Reconstruction Technique

    [[
    x_art = np.zeros(4)
    for _ in range(iters):
        for i in range(4):
            ai = A4[i]
            n2 = ai.dot(ai)
            if n2 > 0:
                r = b4[i] - ai.dot(x_art)
                x_art += relax * (r / n2) * ai
    ]] *)

Definition art_row (A4 : matrix) (b4 : vector) (relax : T)
  (i : nat) (x_art : vector) : result vector :=
  ai <- getitem A4 i ;;
  n2 <- dot ai ai ;;
  if gtb n2 zero then
    bi <- getitem b4 i ;;
    d <- dot ai x_art ;;
    let r := sub bi d in
    iadd x_art (scale (mul relax (div r n2)) ai)
  else Ok x_art.

Definition art_sweep (A4 : matrix) (b4 : vector) (relax : T)
  (x_art : vector) : result vector :=
  for_each (range 4) (art_row A4 b4 relax) x_art.

Definition art (A4 : matrix) (b4 : vector) (iters : nat) (relax : T)
  : result vector :=
  repeat_n iters (art_sweep A4 b4 relax) (zeros 4).

(** The solver in the words of the specification: one relaxation step per
    row, a sweep over all the rows of the system in ascending order, [N]
    sweeps from the zero vector of length [n]. *)

Definition row_update (omega : T) (x : vector) (row : vector * T) : vector :=
  let a := fst row in
  let n2 := dotv a a in
  if gtb n2 zero
  then vadd x (scale (mul omega (div (sub (snd row) (dotv a x)) n2)) a)
  else x.

Definition sweep_rows (A : matrix) (b : vector) (omega : T) (x : vector)
  : vector :=
  fold_left (row_update omega) (combine A b) x.

Definition art_spec (A : matrix) (b : vector) (N : nat) (omega : T)
  : vector :=
  Nat.iter N (sweep_rows A b omega) (zeros (ncols A)).

End Arrays.

(** ** The linear system of the notebook

    [[
    for phi_deg in [0, 90]:
        phi = math.radians(phi_deg)
        for det in range(2):
            d = det - 0.5
            row, val = [], 0.0
            for pix, (x, y) in enumerate(coords):
                hit = float(abs(d - (x*math.cos(phi) + y*math.sin(phi))) < 1e-6)
                row.append(hit)
                val += hit * phantom2.flatten()[pix]
            A4.append(row)
            b4.append(val)
    ]]

    [math.cos] and [math.sin] are the C library's; the builder takes the pair
    [(cos phi, sin phi)] of each angle. *)

Section Projection.
Context {T : Type} `{Num T}.

Definition half : T := div one (of_int 2).
Definition neg_half : T := div (of_int (-1)) (of_int 2).
Definition tol : T := div one (of_int 1000000).

Definition phantom2 : list (list T) :=
  [[of_int 1; of_int 2]; [of_int 3; of_int 4]].

Definition coords : list (T * T) :=
  [(neg_half, neg_half); (half, neg_half); (neg_half, half); (half, half)].

(** [float(c)] of a Python bool *)
Definition float_of_bool (c : bool) : T := if c then one else zero.

Definition projection_row (cs : T * T) (det : nat) : list T * T :=
  let d := sub (of_int (Z.of_nat det)) half in
  fold_left
    (fun (acc : list T * T) (px : T * T * T) =>
       let '(xy, p) := px in
       let hit :=
         float_of_bool
           (ltb (absv (sub d (add (mul (fst xy) (fst cs))
                                  (mul (snd xy) (snd cs))))) tol) in
       (fst acc ++ [hit], add (snd acc) (mul hit p)))
    (combine coords (concat phantom2))
    ([], zero).

Definition projection_system (angles : list (T * T)) : list (list T) * list T :=
  List.split (flat_map (fun cs => map (projection_row cs) (range 2)) angles).

End Projection.

(** [(math.cos(phi), math.sin(phi))] for [phi = math.radians(0)] and
    [math.radians(90)], in binary64 and in the reals. *)
Definition angles_float : list (float * float) :=
  [(1, 0); (0x1.1a62633145c07p-54, 1)]%float.

Definition angles_R : list (R * R) :=
  [(cos 0, sin 0); (cos (PI / 2), sin (PI / 2))]%R.

Definition A4_float : list (list float) := fst (projection_system angles_float).
Definition b4_float : list float := snd (projection_system angles_float).
Definition A4_R : list (list R) := fst (projection_system angles_R).
Definition b4_R : list R := snd (projection_system angles_R).

(** ** complex128 *)

Record complex (T : Type) : Type := mkC { re : T; im : T }.

Arguments mkC {T} re im.
Arguments re {T} c.
Arguments im {T} c.

Section ComplexOps.
Context {T : Type} `{Num T}.

Definition czero : complex T := mkC zero zero.
Definition cadd (x y : complex T) : complex T :=
  mkC (add (re x) (re y)) (add (im x) (im y)).

(** [z / s] and [z * s] for a real scalar [s]: numpy casts [s] to
    [s + 0j]; on the components this is the division, or the product, of
    each of them by [s]. *)
Definition cdiv_real (z : complex T) (s : T) : complex T :=
  mkC (div (re z) s) (div (im z) s).
Definition cmul_real (z : complex T) (s : T) : complex T :=
  mkC (mul (re z) s) (mul (im z) s).

End ComplexOps.

(** ** Setup for HHL: the Hermitian system

    [[
    A_herm = A4.T @ A4 + np.eye(4)
    b_herm = A4.T @ b4
    b_norm = b_herm / np.linalg.norm(b_herm)
    lam_max = max(np.linalg.eigvals(A_herm).real)
    t0    = 2 * pi / lam_max
    ]] *)

Section Hermitian.
Context {T : Type} `{Num T}.

(** [np.eye(n)] *)
Definition eye (n : nat) : list (list T) :=
  map (fun i => map (fun j => if Nat.eqb i j then one else zero) (range n))
      (range n).

(** [A @ B] on arrays of two axes: the inner dimensions must agree. *)
Definition matmul (A B : list (list T)) : result (list (list T)) :=
  if Nat.eqb (ncols A) (length B)
  then Ok (map (fun r => map (fun j => dotv r (column B j)) (range (ncols B)))
             A)
  else Raise ValueError.

(** [A @ v] for [v] of one axis. *)
Definition matvec (A : list (list T)) (v : list T) : result (list T) :=
  if Nat.eqb (ncols A) (length v)
  then Ok (map (fun r => dotv r v) A)
  else Raise ValueError.

(** numpy broadcasting of one dimension: equal, or one of the two is 1. *)
Definition broadcast_dim (a b : nat) : option nat :=
  if Nat.eqb a b then Some a
  else if Nat.eqb a 1 then Some b
  else if Nat.eqb b 1 then Some a
  else None.

(** The entry of [A] read at [(i, j)] of the broadcast shape. *)
Definition bentry (A : list (list T)) (i j : nat) : T :=
  nth (if Nat.eqb (ncols A) 1 then 0 else j)
      (nth (if Nat.eqb (length A) 1 then 0 else i) A []) zero.

(** [A + B] on arrays of two axes. *)
Definition madd (A B : list (list T)) : result (list (list T)) :=
  match broadcast_dim (length A) (length B),
        broadcast_dim (ncols A) (ncols B) with
  | Some m, Some n =>
      Ok (map (fun i => map (fun j => add (bentry A i j) (bentry B i j))
                          (range n))
              (range m))
  | _, _ => Raise ValueError
  end.

(** [np.linalg.norm(v)] of a real array: the square root of [v.dot(v)]. *)
Definition norm (v : list T) : T := sqrtv (dotv v v).

(** Python's [max] of a sequence: the first of the largest entries. *)
Definition pymax (l : list T) : result T :=
  match l with
  | [] => Raise ValueError
  | x :: l' => Ok (fold_left (fun m y => if gtb y m then y else m) l' x)
  end.

Definition A_herm (A4 : list (list T)) : result (list (list T)) :=
  AtA <- matmul (transpose A4) A4 ;;
  madd AtA (eye 4).

Definition b_herm (A4 : list (list T)) (b4 : list T) : result (list T) :=
  matvec (transpose A4) b4.

Definition b_norm (A4 : list (list T)) (b4 : list T) : result (list T) :=
  bh <- b_herm A4 b4 ;;
  Ok (vdiv bh (norm bh)).

(** [np.linalg.eigvals] is LAPACK's: the setup takes it as [eigvals]. *)
Variable eigvals : list (list T) -> list (complex T).

Definition lam_max (A4 : list (list T)) : result T :=
  Ah <- A_herm A4 ;;
  pymax (map re (eigvals Ah)).

Definition t0 (A4 : list (list T)) : result T :=
  lam <- lam_max A4 ;;
  Ok (div (mul (of_int 2) math_pi) lam).

End Hermitian.

(** ** Postselect and extract the HHL solution

    [[
    tensor = state.data.reshape([2]*8)
    sys_amps = tensor[1].sum(axis=(0,1,2,3,4))
    vec = sys_amps.flatten()
    vec /= np.linalg.norm(vec)
    vec *= (1.0 / vec[0].real)
    x_qhl = vec[[3,1,2,0]].reshape(2,2)
    hhl_recon = np.real(x_qhl)
    ]]

    An array of several axes is the list of its entries in row-major order,
    as numpy stores it. *)

Section Extraction.
Context {T : Type} `{Num T}.

(** [data.reshape([2]*8)]: the entries stay in place; there must be 256. *)
Definition reshape_2x8 (data : list (complex T)) : result (list (complex T)) :=
  if Nat.eqb (length data) 256 then Ok data else Raise ValueError.

(** [t[k]] along a leading axis of size 2. *)
Definition index_axis0 (k : nat) (t : list (complex T)) : list (complex T) :=
  firstn (length t / 2) (skipn (k * (length t / 2)) t).

(** [t.sum(axis=0)] along a leading axis of size 2. *)
Definition sum_axis0 (t : list (complex T)) : list (complex T) :=
  map (fun p => cadd (fst p) (snd p))
      (combine (firstn (length t / 2) t) (skipn (length t / 2) t)).

(** [tensor[1].sum(axis=(0,1,2,3,4))]: the five leading axes of the seven
    that remain are summed, one after the other. *)
Definition sys_amps (tensor : list (complex T)) : list (complex T) :=
  Nat.iter 5 sum_axis0 (index_axis0 1 tensor).

(** [np.linalg.norm(v)] of a complex array: the square root of
    [v.real.dot(v.real) + v.imag.dot(v.imag)]. *)
Definition cnorm (v : list (complex T)) : T :=
  sqrtv (add (dotv (map re v) (map re v)) (dotv (map im v) (map im v))).

(** [v[idx]] for a list of indices. *)
Fixpoint take (v : list (complex T)) (idx : list nat)
  : result (list (complex T)) :=
  match idx with
  | [] => Ok []
  | i :: idx' => z <- getitem v i ;; zs <- take v idx' ;; Ok (z :: zs)
  end.

(** [v.reshape(2,2)] *)
Definition reshape_2_2 (v : list (complex T))
  : result (list (list (complex T))) :=
  match v with
  | [a; b; c; d] => Ok [[a; b]; [c; d]]
  | _ => Raise ValueError
  end.

(** [vec] after [vec /= np.linalg.norm(vec)]. *)
Definition vec_normalized (data : list (complex T))
  : result (list (complex T)) :=
  tensor <- reshape_2x8 data ;;
  let vec := sys_amps tensor in
  Ok (map (fun z => cdiv_real z (cnorm vec)) vec).

(** [vec] after [vec *= (1.0 / vec[0].real)]. *)
Definition vec_rescaled (data : list (complex T))
  : result (list (complex T)) :=
  vec <- vec_normalized data ;;
  v0 <- getitem vec 0 ;;
  Ok (map (fun z => cmul_real z (div one (re v0))) vec).

Definition hhl_recon (data : list (complex T)) : result (list (list T)) :=
  vec <- vec_rescaled data ;;
  picked <- take vec [3; 1; 2; 0] ;;
  x_qhl <- reshape_2_2 picked ;;
  Ok (map (map re) x_qhl).

End Extraction.

(** The statevector of a basis state of the eight qubits: amplitude [a] at
    the basis index [k], 0 elsewhere. *)
Definition basis_state {T : Type} `{Num T} (k : nat) (a : complex T)
  : list (complex T) :=
  map (fun i => if Nat.eqb i k then a else czero) (range 256).

(** ** The quantum circuit

    [[
    anc   = QuantumRegister(1, 'anc')
    clk   = QuantumRegister(5, 'clk')
    sysq  = QuantumRegister(2, 'sys')
    creg  = ClassicalRegister(3, 'c')
    qc    = QuantumCircuit(anc, clk, sysq, creg)
    ]]

    A register is the list of the circuit's qubit numbers it holds, in the
    order in which the registers are given to [QuantumCircuit]; the circuit
    is the list of the instructions appended so far. *)

Definition anc : list nat := [0].
Definition clk : list nat := [1; 2; 3; 4; 5].
Definition sysq : list nat := [6; 7].
Definition creg : list nat := [0; 1; 2].

Inductive instr : Type :=
| Barrier (label : string)
| Swap (a b : nat)
| H (q : nat)
| CP (theta : R) (control target : nat)
| X (q : nat)
| MCRY (theta : R) (controls : list nat) (target : nat)
| Initialize (amplitudes : list R) (qubits : list nat)
| AppendU (k : nat) (inverse : bool) (qubits : list nat)
| Measure (qubit clbit : nat).

Definition circuit : Type := list instr.

(** [reg[i]] *)
Definition qubit (reg : list nat) (i : nat) : result nat := getitem reg i.

(** [for x in l: circ = body x circ] *)
Fixpoint for_in {A S : Type} (l : list A) (body : A -> S -> result S) (s : S)
  : result S :=
  match l with
  | [] => Ok s
  | x :: l' => s' <- body x s ;; for_in l' body s'
  end.

(** [range(a, b)] *)
Definition range_from (a b : nat) : list nat := seq a (b - a).

Definition swap_ends (i : nat) (circ : circuit) : result circuit :=
  a <- qubit clk i ;; b <- qubit clk (4 - i) ;; Ok (circ ++ [Swap a b]).

(** [[
    def qft(circ):
        circ.barrier(label="QFT-start")
        for i in range(5 // 2):
            circ.swap(clk[i], clk[4 - i])
        for j in range(5):
            circ.h(clk[j])
            for k in range(j+1, 5):
                circ.cp(pi / 2**(k-j), clk[k], clk[j])
        circ.barrier(label="QFT-end")
    ]] *)
Definition qft (circ : circuit) : result circuit :=
  let circ := circ ++ [Barrier "QFT-start"] in
  circ <- for_in (range (5 / 2)) swap_ends circ ;;
  circ <- for_in (range 5)
            (fun j circ =>
               qj <- qubit clk j ;;
               let circ := circ ++ [H qj] in
               for_in (range_from (j + 1) 5)
                 (fun k circ =>
                    qk <- qubit clk k ;;
                    qj <- qubit clk j ;;
                    Ok (circ ++ [CP (PI / 2 ^ (k - j)) qk qj]))
                 circ)
            circ ;;
  Ok (circ ++ [Barrier "QFT-end"]).

(** [[
    def qft_dg(circ):
        circ.barrier(label="iQFT-start")
        for j in reversed(range(5)):
            for k in reversed(range(j+1, 5)):
                circ.cp(-pi / 2**(k-j), clk[k], clk[j])
            circ.h(clk[j])
        for i in range(5 // 2):
            circ.swap(clk[i], clk[4 - i])
        circ.barrier(label="iQFT-end")
    ]] *)
Definition qft_dg (circ : circuit) : result circuit :=
  let circ := circ ++ [Barrier "iQFT-start"] in
  circ <- for_in (rev (range 5))
            (fun j circ =>
               circ <- for_in (rev (range_from (j + 1) 5))
                         (fun k circ =>
                            qk <- qubit clk k ;;
                            qj <- qubit clk j ;;
                            Ok (circ ++ [CP (- PI / 2 ^ (k - j)) qk qj]))
                         circ ;;
               qj <- qubit clk j ;;
               Ok (circ ++ [H qj]))
            circ ;;
  circ <- for_in (range (5 / 2)) swap_ends circ ;;
  Ok (circ ++ [Barrier "iQFT-end"]).

(** [[
    def qpe(circ):
        circ.barrier(label="QPE-start")
        circ.h(clk)
        circ.barrier(label="QPE-H")
        for k in range(5):
            circ.append(U_ops[k], [clk[k], *sysq])
        circ.barrier(label="QPE-U")
        qft_dg(circ)
        circ.barrier(label="QPE-end")
    ]]

    [circ.h(clk)] appends one [h] for each qubit of the register. *)
Definition qpe (circ : circuit) : result circuit :=
  let circ := circ ++ [Barrier "QPE-start"] in
  let circ := circ ++ map H clk in
  let circ := circ ++ [Barrier "QPE-H"] in
  circ <- for_in (range 5)
            (fun k circ =>
               qk <- qubit clk k ;;
               Ok (circ ++ [AppendU k false (qk :: sysq)]))
            circ ;;
  let circ := circ ++ [Barrier "QPE-U"] in
  circ <- qft_dg circ ;;
  Ok (circ ++ [Barrier "QPE-end"]).

(** [[
    def inv_qpe(circ):
        circ.barrier(label="InvQPE-start")
        qft(circ)
        for k in reversed(range(5)):
            circ.append(U_ops[k].inverse(), [clk[k], *sysq])
        circ.barrier(label="InvQPE-end")
    ]] *)
Definition inv_qpe (circ : circuit) : result circuit :=
  let circ := circ ++ [Barrier "InvQPE-start"] in
  circ <- qft circ ;;
  circ <- for_in (rev (range 5))
            (fun k circ =>
               qk <- qubit clk k ;;
               Ok (circ ++ [AppendU k true (qk :: sysq)]))
            circ ;;
  Ok (circ ++ [Barrier "InvQPE-end"]).

(** [format(pat, '05b')]: the binary digits of [pat], the most significant
    first, padded with ['0'] on the left to five characters. *)
Fixpoint pos_digits_lsb (p : positive) : list ascii :=
  match p with
  | xH => ["1"%char]
  | xO q => "0"%char :: pos_digits_lsb q
  | xI q => "1"%char :: pos_digits_lsb q
  end.

Definition format_05b (pat : N) : list ascii :=
  let digits := rev (match pat with
                     | N0 => ["0"%char]
                     | Npos p => pos_digits_lsb p
                     end) in
  repeat "0"%char (5 - length digits) ++ digits.

(** [enumerate(l)] *)
Definition enumerate {A : Type} (l : list A) : list (nat * A) :=
  combine (seq 0 (length l)) l.

(** [[
    for i, bit in enumerate(reversed(bits)):
        if bit == '0':
            circ.x(clk[i])
    ]] *)
Definition flip_zero_bits (bits : list ascii) (circ : circuit)
  : result circuit :=
  for_in (enumerate (rev bits))
    (fun ib circ =>
       if Ascii.eqb (snd ib) "0"%char
       then q <- qubit clk (fst ib) ;; Ok (circ ++ [X q])
       else Ok circ)
    circ.

(** [1/lam] for a Python int [lam], then [math.asin]: the division raises
    for [lam == 0]; for the other integers the quotient lies in the domain
    of [asin]. *)
Definition theta_of (lam : Z) : result R :=
  if Z.eqb lam 0 then Raise ZeroDivisionError
  else Ok (2 * asin (1 / IZR lam))%R.

(** [[
    for pat, lam in phase_to_lambda.items():
        theta = 2 * asin(1/lam)
        bits  = format(pat, '05b')
        for i, bit in enumerate(reversed(bits)): ...
        circ.mcry(theta, clk, anc[0])
        for i, bit in enumerate(reversed(bits)): ...
    ]] *)
Definition rotate_entry (entry : N * Z) (circ : circuit) : result circuit :=
  theta <- theta_of (snd entry) ;;
  let bits := format_05b (fst entry) in
  circ <- flip_zero_bits bits circ ;;
  a <- qubit anc 0 ;;
  let circ := circ ++ [MCRY theta clk a] in
  flip_zero_bits bits circ.

(** [{0b00110:1, 0b10011:3, 0b00000:5}], in insertion order. *)
Definition phase_to_lambda : list (N * Z) :=
  [(6%N, 1%Z); (19%N, 3%Z); (0%N, 5%Z)].

(** [[
    def hhl(circ):
        circ.barrier(label="HHL-init")
        circ.initialize(b_norm, sysq)
        qpe(circ)
        circ.barrier(label="Rot-start")
        phase_to_lambda = {0b00110:1, 0b10011:3, 0b00000:5}
        for pat, lam in phase_to_lambda.items(): ...
        circ.barrier(label="Rot-end")
        inv_qpe(circ)
        circ.measure(anc, creg[0])
        circ.barrier(label="HHL-complete")
    ]] *)
Definition hhl (b_norm : list R) (circ : circuit) : result circuit :=
  let circ := circ ++ [Barrier "HHL-init"] in
  let circ := circ ++ [Initialize b_norm sysq] in
  circ <- qpe circ ;;
  let circ := circ ++ [Barrier "Rot-start"] in
  circ <- for_in phase_to_lambda rotate_entry circ ;;
  let circ := circ ++ [Barrier "Rot-end"] in
  circ <- inv_qpe circ ;;
  a <- qubit anc 0 ;;
  c0 <- getitem creg 0 ;;
  let circ := circ ++ [Measure a c0] in
  Ok (circ ++ [Barrier "HHL-complete"]).

(** [[
    qc.barrier(label="Start")
    hhl(qc)
    qc.measure(sysq[0], creg[1])
    qc.measure(sysq[1], creg[2])
    qc.barrier(label="End")
    ]] *)
Definition build_circuit (b_norm : list R) : result circuit :=
  let qc := [Barrier "Start"] in
  qc <- hhl b_norm qc ;;
  s0 <- qubit sysq 0 ;; c1 <- getitem creg 1 ;;
  let qc := qc ++ [Measure s0 c1] in
  s1 <- qubit sysq 1 ;; c2 <- getitem creg 2 ;;
  let qc := qc ++ [Measure s1 c2] in
  Ok (qc ++ [Barrier "End"]).

(** ** The meaning of the gates on a statevector

    Qiskit's conventions: the amplitude of a basis state sits at the index
    whose bit [q] is the value of qubit [q] (qubit 0 is the least significant
    bit); [Statevector.data] lists the amplitudes by index. *)

Definition cmul (x y : complex R) : complex R :=
  mkC (re x * re y - im x * im y)%R (re x * im y + im x * re y)%R.
Definition csub (x y : complex R) : complex R :=
  mkC (re x - re y)%R (im x - im y)%R.
Definition cscale (s : R) (x : complex R) : complex R :=
  mkC (s * re x)%R (s * im x)%R.

Definition state : Type := nat -> complex R.

Definition bit (i q : nat) : bool := Nat.testbit i q.

(** The index [i] with bit [q] inverted. *)
Definition flip (q i : nat) : nat := Nat.lxor i (2 ^ q).

(** The index [i] with the bits [a] and [b] exchanged. *)
Definition swap_bits (a b i : nat) : nat :=
  if Bool.eqb (bit i a) (bit i b) then i else flip a (flip b i).

Definition x_gate (q : nat) (psi : state) : state :=
  fun i => psi (flip q i).

Definition h_gate (q : nat) (psi : state) : state :=
  fun i =>
    cscale (1 / R_sqrt.sqrt 2)
      (if bit i q then csub (psi (flip q i)) (psi i)
       else cadd (psi i) (psi (flip q i))).

(** The controlled phase: [exp(i theta)] on the states with both bits set. *)
Definition cp_gate (theta : R) (c t : nat) (psi : state) : state :=
  fun i =>
    if bit i c && bit i t then cmul (mkC (cos theta) (sin theta)) (psi i)
    else psi i.

Definition swap_gate (a b : nat) (psi : state) : state :=
  fun i => psi (swap_bits a b i).

(** [RY(theta)] on qubit [t]: the matrix with rows
    [(cos (theta/2), - sin (theta/2))] and [(sin (theta/2), cos (theta/2))]. *)
Definition ry_gate (theta : R) (t : nat) (psi : state) : state :=
  fun i =>
    if bit i t
    then cadd (cscale (sin (theta / 2)) (psi (flip t i)))
              (cscale (cos (theta / 2)) (psi i))
    else csub (cscale (cos (theta / 2)) (psi i))
              (cscale (sin (theta / 2)) (psi (flip t i))).

(** [mcry]: [RY(theta)] on the target where every control bit is set. *)
Definition mcry_gate (theta : R) (controls : list nat) (t : nat)
  (psi : state) : state :=
  fun i => if forallb (bit i) controls then ry_gate theta t psi i else psi i.

(** The gates of the clock and ancilla registers have their meaning here;
    [initialize], the appended [U_ops] and [measure] have none. *)
Definition gate_fun (g : instr) : option (state -> state) :=
  match g with
  | Barrier _ => Some (fun psi => psi)
  | Swap a b => Some (swap_gate a b)
  | H q => Some (h_gate q)
  | CP theta c t => Some (cp_gate theta c t)
  | X q => Some (x_gate q)
  | MCRY theta cs t => Some (mcry_gate theta cs t)
  | Initialize _ _ | AppendU _ _ _ | Measure _ _ => None
  end.

Definition run (circ : circuit) (psi : state) : option state :=
  fold_left
    (fun acc g =>
       match acc, gate_fun g with
       | Some s, Some f => Some (f s)
       | _, _ => None
       end)
    circ (Some psi).

(** The value of the clock register in the basis state [i]: clock qubit
    [k] is bit [k + 1] of [i]. *)
Definition clock_is (pat : N) (i : nat) : bool :=
  forallb (fun k => Bool.eqb (bit i (k + 1)) (N.testbit pat (N.of_nat k)))
          (range 5).

(** The same, with a meaning [u k inverse qubits] given to the appended
    operator [U_ops[k]] (or to its [inverse()]); [U_ops] is built by scipy
    and Qiskit, so its meaning is taken as given. *)
Definition gate_fun_with (u : nat -> bool -> list nat -> state -> state)
  (g : instr) : option (state -> state) :=
  match g with
  | AppendU k inverse qubits => Some (u k inverse qubits)
  | _ => gate_fun g
  end.

Definition run_with (u : nat -> bool -> list nat -> state -> state)
  (circ : circuit) (psi : state) : option state :=
  fold_left
    (fun acc g =>
       match acc, gate_fun_with u g with
       | Some s, Some f => Some (f s)
       | _, _ => None
       end)
    circ (Some psi).

(** ** Definitions used to state the properties *)

(** A binary64 zero of either sign. *)
Definition float_zero (z : float) : Prop := z = 0%float \/ z = (-0)%float.

(** The entry [(i, j)] of [transpose A * A + I], as a sum over the rows. *)
Definition gram_plus_identity (A : list (list R)) (i j : nat) : R :=
  (fold_right Rplus 0 (map (fun r => nth i r 0 * nth j r 0) A)
   + (if Nat.eqb i j then 1 else 0))%R.

(** The entry [j] of [transpose A * b]. *)
Definition transpose_times (A : list (list R)) (b : list R) (j : nat) : R :=
  fold_right Rplus 0%R (map (fun rb => nth j (fst rb) 0 * snd rb)%R
                          (combine A b)).

(** [lam] is an eigenvalue of the real matrix [M]: [M v = lam v] for a
    complex vector [v = vr + i vi] that is not zero. *)
Definition is_eigenvalue (M : list (list R)) (lam : complex R) : Prop :=
  exists vr vi : list R,
    length vr = length M /\ length vi = length M
    /\ (exists k, nth k vr 0 <> 0 \/ nth k vi 0 <> 0)%R
    /\ forall i, i < length M ->
         (dotv (nth i M []) vr
          = re lam * nth i vr 0 - im lam * nth i vi 0
          /\ dotv (nth i M []) vi
             = im lam * nth i vr 0 + re lam * nth i vi 0)%R.

(** The spectrum of [A_herm] for the notebook's matrix: 1, 3, 3 and 5. *)
Definition A4_spectrum : list (complex R) :=
  [mkC 1 0; mkC 3 0; mkC 3 0; mkC 5 0]%R.

Definition sq_norm4 (v0 v1 v2 v3 : complex R) : R :=
  (re v0 * re v0 + re v1 * re v1 + re v2 * re v2 + re v3 * re v3
   + (im v0 * im v0 + im v1 * im v1 + im v2 * im v2 + im v3 * im v3))%R.

(** A normalised statevector: amplitude [(1 + i) / 2] at the basis indices
    128 and 129. *)
Definition two_amplitudes : list (complex float) :=
  map (fun i => if Nat.eqb i 128 || Nat.eqb i 129
                then mkC 0.5%float 0.5%float else czero)
      (range 256).

Definition vsub (x y : list R) : list R :=
  map (fun p => (fst p - snd p)%R) (combine x y).

(** The squared Euclidean distance between [x] and [y]. *)
Definition dist2 (x y : list R) : R := dotv (vsub x y) (vsub x y).

(** The sum of a list of complex numbers. *)
Definition csum {T : Type} `{Num T} (l : list (complex T)) : complex T :=
  fold_right cadd czero l.

Definition statevector_data (psi : nat -> complex R) : list (complex R) :=
  map psi (range 256).

(** The instructions a subroutine appends to an empty circuit. *)
Definition gates_of (build : circuit -> result circuit) : circuit :=
  match build [] with
  | Ok c => c
  | Raise _ => []
  end.

(** The index [i] with the bits of [qs] inverted, one after the other. *)
Definition flip_all (qs : list nat) (i : nat) : nat := fold_right flip i qs.

(** Whether [c] occurs an odd number of times in [qs]. *)
Definition odd_in (qs : list nat) (c : nat) : bool :=
  fold_right (fun q acc => xorb (Nat.eqb q c) acc) false qs.

(** The clock qubits whose bit in the pattern is 0. *)
Definition zero_qubits (pat : N) : list nat :=
  map (fun k => k + 1)
      (filter (fun k => negb (N.testbit pat (N.of_nat k))) (range 5)).

(** The basis indices below 256 that satisfy [p]. *)
Definition indices_with (p : nat -> bool) : list nat := filter p (range 256).

Definition indicator {T : Type} `{Num T} (h : T) : Prop :=
  h = one \/ h = zero.

(** ** Facts about the Python loops *)

Lemma repeat_n_iter {S : Type} (f : S -> S) (P : S -> Prop)
  (body : S -> result S) :
  (forall s, P s -> body s = Ok (f s) /\ P (f s)) ->
  forall n s, P s -> repeat_n n body s = Ok (Nat.iter n f s).
Proof.
  intros Hbody n; induction n as [|n IH]; intros s Hs.
  - reflexivity.
  - destruct (Hbody s Hs) as [E Hfs].
    cbn [repeat_n]. rewrite E. cbn [bind].
    rewrite (IH _ Hfs). now rewrite Nat.iter_succ_r.
Qed.

Lemma length_4 {A : Type} (l : list A) :
  length l = 4 -> exists a b c d, l = [a; b; c; d].
Proof.
  destruct l as [|a [|b [|c [|d [|e l]]]]]; try discriminate.
  intros _. now exists a, b, c, d.
Qed.

(** ** ART: the loop and the row relaxation *)

Section ArtFacts.
Context {T : Type} `{Num T}.

Lemma length_vadd (u v : list T) :
  length u = length v -> length (vadd u v) = length u.
Proof.
  intros E. unfold vadd. rewrite length_map, length_combine, E.
  apply Nat.min_id.
Qed.

Lemma length_row_update (omega : T) (x a : list T) (bi : T) :
  length a = length x -> length (row_update omega x (a, bi)) = length x.
Proof.
  intros E. unfold row_update. cbn [fst snd].
  destruct (gtb (dotv a a) zero); [|reflexivity].
  apply length_vadd. unfold scale. now rewrite length_map.
Qed.

Lemma art_row_is_row_update (A b : list _) (omega : T) (i : nat)
  (x a : list T) (bi : T) :
  nth_error A i = Some a -> nth_error b i = Some bi ->
  length a = length x ->
  art_row A b omega i x = Ok (row_update omega x (a, bi)).
Proof.
  intros Ha Hb E. unfold art_row, getitem, row_update, dot, iadd.
  rewrite Ha. cbn [bind fst snd]. rewrite Nat.eqb_refl. cbn [bind].
  destruct (gtb (dotv a a) zero); [|reflexivity].
  rewrite Hb. cbn [bind]. rewrite E, Nat.eqb_refl. cbn [bind].
  unfold scale. rewrite length_map, E, Nat.eqb_refl. reflexivity.
Qed.

Lemma art_row_skips_zero_row (A b : list _) (omega : T) (i : nat)
  (x a : list T) :
  nth_error A i = Some a -> gtb (dotv a a) zero = false ->
  art_row A b omega i x = Ok x.
Proof.
  intros Ha Hz. unfold art_row, getitem, dot.
  rewrite Ha. cbn [bind]. rewrite Nat.eqb_refl. cbn [bind].
  now rewrite Hz.
Qed.

Lemma art_sweep_is_sweep_rows (A : list (list T)) (b : list T) (omega : T)
  (x : list T) :
  is_matrix 4 4 A -> length b = 4 -> length x = 4 ->
  art_sweep A b omega x = Ok (sweep_rows A b omega x)
  /\ length (sweep_rows A b omega x) = 4.
Proof.
  intros [HA Hrows] Hb Hx.
  destruct (length_4 A HA) as (a0 & a1 & a2 & a3 & ->).
  destruct (length_4 b Hb) as (b0 & b1 & b2 & b3 & ->).
  apply Forall_cons_iff in Hrows as [L0 Hrows].
  apply Forall_cons_iff in Hrows as [L1 Hrows].
  apply Forall_cons_iff in Hrows as [L2 Hrows].
  apply Forall_cons_iff in Hrows as [L3 _].
  unfold art_sweep, sweep_rows, range.
  cbn [seq for_each combine fold_left].
  set (x1 := row_update omega x (a0, b0)).
  set (x2 := row_update omega x1 (a1, b1)).
  set (x3 := row_update omega x2 (a2, b2)).
  assert (E1 : length x1 = 4)
    by (unfold x1; rewrite length_row_update; congruence).
  assert (E2 : length x2 = 4)
    by (unfold x2; rewrite length_row_update; congruence).
  assert (E3 : length x3 = 4)
    by (unfold x3; rewrite length_row_update; congruence).
  rewrite (art_row_is_row_update _ _ omega 0 x a0 b0) by
    (try reflexivity; congruence).
  cbn [bind]. fold x1.
  rewrite (art_row_is_row_update _ _ omega 1 x1 a1 b1) by
    (try reflexivity; congruence).
  cbn [bind]. fold x2.
  rewrite (art_row_is_row_update _ _ omega 2 x2 a2 b2) by
    (try reflexivity; congruence).
  cbn [bind]. fold x3.
  rewrite (art_row_is_row_update _ _ omega 3 x3 a3 b3) by
    (try reflexivity; congruence).
  cbn [bind]. split; [reflexivity|].
  rewrite length_row_update; congruence.
Qed.

Lemma length_zeros (n : nat) : length (zeros n) = n.
Proof. apply repeat_length. Qed.

Lemma ncols_4 (m : nat) (A : list (list T)) :
  is_matrix (Datatypes.S m) 4 A -> ncols A = 4.
Proof.
  intros [HA Hrows]. destruct A as [|r A]; [discriminate|].
  now apply Forall_cons_iff in Hrows as [L _].
Qed.

End ArtFacts.

(** ** The notebook's system, in binary64 and in the reals *)

Example A4_float_value :
  A4_float = [[1; 0; 1; 0]; [0; 1; 0; 1]; [1; 1; 0; 0]; [0; 0; 1; 1]]%float
  /\ b4_float = [4; 6; 3; 7]%float.
Proof. split; vm_compute; reflexivity. Qed.

Lemma Rltb_true (x y : R) : (x < y)%R -> Rltb x y = true.
Proof. intros L. unfold Rltb. now destruct (Rlt_dec x y). Qed.

Lemma Rltb_false (x y : R) : ~ (x < y)%R -> Rltb x y = false.
Proof. intros L. unfold Rltb. now destruct (Rlt_dec x y). Qed.

Lemma Rgtb_true (x y : R) : (y < x)%R -> Rgtb x y = true.
Proof. intros L. unfold Rgtb. now destruct (Rlt_dec y x). Qed.

Lemma Rgtb_false (x y : R) : ~ (y < x)%R -> Rgtb x y = false.
Proof. intros L. unfold Rgtb. now destruct (Rlt_dec y x). Qed.

Ltac decide_hit :=
  match goal with
  | |- context [Rltb (Rabs ?e) ?t] =>
      first
        [ rewrite (Rltb_true (Rabs e) t) by (apply Rabs_def1; lra)
        | rewrite (Rltb_false (Rabs e) t)
            by (let Hc := fresh in intro Hc; apply Rabs_def2 in Hc; lra) ]
  end.

Lemma A4_R_value :
  A4_R = [[1; 0; 1; 0]; [0; 1; 0; 1]; [1; 1; 0; 0]; [0; 0; 1; 1]]%R
  /\ b4_R = [4; 6; 3; 7]%R.
Proof.
  unfold A4_R, b4_R, projection_system, angles_R.
  rewrite cos_0, sin_0, cos_PI2, sin_PI2.
  cbn -[Rltb Rabs Rdiv IZR Rmult Rplus Rminus].
  unfold float_of_bool.
  repeat decide_hit.
  cbn -[Rdiv IZR Rmult Rplus Rminus].
  split; [reflexivity|].
  repeat (f_equal; try lra).
Qed.

(** ** The solver against its specification *)

Section ArtRefinement.
Context {T : Type} `{Num T}.

Lemma art_is_art_spec (A : list (list T)) (b : list T) (N : nat) (omega : T) :
  is_matrix 4 4 A -> length b = 4 ->
  art A b N omega = Ok (art_spec A b N omega).
Proof.
  intros HA Hb. unfold art, art_spec.
  rewrite (ncols_4 3 A HA).
  apply (repeat_n_iter (sweep_rows A b omega) (fun x => length x = 4)).
  - intros x Hx. now apply art_sweep_is_sweep_rows.
  - apply length_zeros.
Qed.

End ArtRefinement.

(** C3 (as amended).  For every 4-by-4 matrix [A] and vector [b] of length 4,
    every sweep count [N] and relaxation factor [omega], [art] returns (it
    raises nothing) the vector obtained from [zeros 4] by [N] sweeps, each
    sweep visiting the rows in ascending index order; a row whose squared
    norm is greater than 0 replaces [x] by
    [x + omega * ((b_i - a_i . x) / |a_i|^2) * a_i], and a row whose squared
    norm is not greater than 0 leaves [x] as it is, without an error. *)
Theorem art_sweeps_the_four_rows {T : Type} `{Num T}
  (A : list (list T)) (b : list T) (N : nat) (omega : T) :
  is_matrix 4 4 A -> length b = 4 ->
  art A b N omega
  = Ok (Nat.iter N (fun x => fold_left (row_update omega) (combine A b) x)
          (zeros 4))
  /\ (forall x a bi, gtb (dotv a a) zero = true ->
        row_update omega x (a, bi)
        = vadd x (scale (mul omega (div (sub bi (dotv a x)) (dotv a a))) a))
  /\ (forall x a bi, gtb (dotv a a) zero = false ->
        row_update omega x (a, bi) = x)
  /\ (forall i x a, nth_error A i = Some a -> gtb (dotv a a) zero = false ->
        art_row A b omega i x = Ok x).
Proof.
  intros HA Hb. repeat split.
  - rewrite (art_is_art_spec A b N omega HA Hb). unfold art_spec.
    now rewrite (ncols_4 3 A HA).
  - intros x a bi Hn. unfold row_update. cbn [fst snd]. now rewrite Hn.
  - intros x a bi Hn. unfold row_update. cbn [fst snd]. now rewrite Hn.
  - intros i x a Ha Hn. exact (art_row_skips_zero_row A b omega i x a Ha Hn).
Qed.

Lemma A4_float_is_matrix : is_matrix 4 4 A4_float /\ length b4_float = 4.
Proof.
  repeat split; vm_compute; repeat constructor.
Qed.

Lemma art_sweeps_the_four_rows_witness :
  art A4_float b4_float 10 1%float
  = Ok (Nat.iter 10
          (fun x => fold_left (row_update 1%float)
                      (combine A4_float b4_float) x)
          (zeros 4)).
Proof.
  destruct A4_float_is_matrix as [HA Hb].
  destruct (art_sweeps_the_four_rows A4_float b4_float 10 1%float HA Hb)
    as [E _].
  exact E.
Defined.

(** A system of five rows: the fifth row is the only one that is not zero. *)
Definition A5_float : list (list float) :=
  [[0; 0; 0; 0]; [0; 0; 0; 0]; [0; 0; 0; 0]; [0; 0; 0; 0]; [1; 0; 0; 0]]%float.
Definition b5_float : list float := [0; 0; 0; 0; 1]%float.

(** Two outcomes that differ in the first entry of the returned vector. *)
Definition first_entry (r : result (list float)) : spec_float :=
  match r with
  | Ok (x :: _) => Prim2SF x
  | _ => S754_nan
  end.

Ltac float_discriminate H :=
  apply (f_equal first_entry) in H; vm_compute in H; discriminate H.

(** C3 (as stated) fails on a 5-by-4 system: the loop visits the rows
    0 to 3 only, so one sweep leaves [x] at zero, where a sweep over all the
    rows moves it to [(1, 0, 0, 0)]. *)
Lemma art_ignores_the_fifth_row :
  art A5_float b5_float 1 1%float = Ok [0; 0; 0; 0]%float
  /\ art_spec A5_float b5_float 1 1%float = [1; 0; 0; 0]%float
  /\ art A5_float b5_float 1 1%float
     <> Ok (art_spec A5_float b5_float 1 1%float).
Proof.
  repeat split; try (vm_compute; reflexivity).
  intros E. float_discriminate E.
Qed.

(** ** The end-to-end scenario *)

Ltac eval_row_update :=
  unfold row_update, dotv;
  cbn -[Rgtb Rdiv IZR Rmult Rplus Rminus];
  rewrite Rgtb_true by lra;
  unfold vadd, scale;
  cbn -[Rdiv IZR Rmult Rplus Rminus];
  repeat (f_equal; try (field_simplify; lra)).

Lemma sweep_rows_R_from_zero :
  sweep_rows A4_R b4_R 1%R (zeros 4) = [1; 2; 3; 4]%R.
Proof.
  destruct A4_R_value as [-> ->].
  unfold sweep_rows. cbn [combine fold_left zeros repeat].
  replace (row_update 1%R [zero; zero; zero; zero] ([1; 0; 1; 0], 4))%R
    with [2; 0; 2; 0]%R by (symmetry; eval_row_update).
  replace (row_update 1%R [2; 0; 2; 0] ([0; 1; 0; 1], 6))%R
    with [2; 3; 2; 3]%R by (symmetry; eval_row_update).
  replace (row_update 1%R [2; 3; 2; 3] ([1; 1; 0; 0], 3))%R
    with [1; 2; 2; 3]%R by (symmetry; eval_row_update).
  eval_row_update.
Qed.

Lemma sweep_rows_R_fixed :
  sweep_rows A4_R b4_R 1%R [1; 2; 3; 4]%R = [1; 2; 3; 4]%R.
Proof.
  destruct A4_R_value as [-> ->].
  unfold sweep_rows. cbn [combine fold_left].
  replace (row_update 1%R [1; 2; 3; 4] ([1; 0; 1; 0], 4))%R
    with [1; 2; 3; 4]%R by (symmetry; eval_row_update).
  replace (row_update 1%R [1; 2; 3; 4] ([0; 1; 0; 1], 6))%R
    with [1; 2; 3; 4]%R by (symmetry; eval_row_update).
  replace (row_update 1%R [1; 2; 3; 4] ([1; 1; 0; 0], 3))%R
    with [1; 2; 3; 4]%R by (symmetry; eval_row_update).
  eval_row_update.
Qed.

Lemma iter_fixed {S : Type} (f : S -> S) (s : S) (n : nat) :
  f s = s -> Nat.iter n f s = s.
Proof.
  intros E. induction n as [|n IH]; [reflexivity|].
  change (Nat.iter (Datatypes.S n) f s) with (f (Nat.iter n f s)). now rewrite IH.
Qed.

Lemma A4_R_is_matrix : is_matrix 4 4 A4_R /\ length b4_R = 4.
Proof.
  destruct A4_R_value as [-> ->].
  repeat split; repeat constructor.
Qed.

(** Every entry of [x] is within [1e-6] of the entry of [p] at its place. *)
Definition within_tol {T : Type} `{Num T} (x p : list T) : bool :=
  Nat.eqb (length x) (length p)
  && forallb (fun xp => ltb (absv (sub (fst xp) (snd xp))) tol) (combine x p).

(** C1.  On the notebook's system (the 0/1 matrix [A4] and the vector [b4]
    built from the phantom [[1,2],[3,4]] at 0 and 90 degrees), [art] with 10
    sweeps and relaxation factor 1 returns, from the zero vector, a vector
    whose every entry is within [1e-6] of the flattened phantom
    [(1, 2, 3, 4)]: in binary64 and in exact arithmetic it is that vector. *)
Theorem art_reproduces_the_phantom :
  (art A4_float b4_float 10 1%float = Ok [1; 2; 3; 4]%float
   /\ within_tol [1; 2; 3; 4]%float (concat phantom2) = true)
  /\ (art A4_R b4_R 10 1%R = Ok [1; 2; 3; 4]%R
      /\ within_tol [1; 2; 3; 4]%R (concat phantom2) = true).
Proof.
  split; [split; vm_compute; reflexivity|].
  destruct A4_R_is_matrix as [HA Hb]. split.
  - rewrite (art_is_art_spec A4_R b4_R 10 1%R HA Hb). f_equal.
    unfold art_spec. rewrite (ncols_4 3 A4_R HA).
    rewrite Nat.iter_succ_r, sweep_rows_R_from_zero.
    apply iter_fixed, sweep_rows_R_fixed.
  - unfold within_tol, phantom2, tol.
    cbn -[Rltb Rabs Rdiv IZR Rminus].
    repeat (rewrite Rltb_true
              by (apply Rabs_def1; lra)).
    reflexivity.
Qed.

(** ** The normalisation of a zero right-hand side (binary64) *)

Lemma dotv_float_zero (v : list float) :
  Forall float_zero v -> dotv v v = 0%float.
Proof.
  unfold dotv. change (@zero float Num_float) with 0%float.
  intros Hv. induction Hv as [|z v Hz _ IH]; [reflexivity|].
  cbn [combine fold_left fst snd].
  replace (add 0%float (mul z z)) with 0%float; [exact IH|].
  destruct Hz as [-> | ->]; reflexivity.
Qed.

Lemma vdiv_float_zero (v : list float) :
  Forall float_zero v -> vdiv v 0%float = map (fun _ => nan) v.
Proof.
  intros Hv. induction Hv as [|z v Hz _ IH]; [reflexivity|].
  unfold vdiv in *. cbn [map]. rewrite IH. f_equal.
  destruct Hz as [-> | ->]; reflexivity.
Qed.

(** X13.  In binary64, when [b_herm], the product of the transpose of [A]
    with [b], is the zero vector, the normalisation [b_herm / norm b_herm]
    raises nothing: it returns the vector whose every entry is NaN. *)
Theorem b_norm_of_zero_is_nan (A : list (list float)) (b bh : list float) :
  b_herm A b = Ok bh -> Forall float_zero bh ->
  b_norm A b = Ok (map (fun _ => nan) bh)
  /\ b_norm A b <> Raise ZeroDivisionError.
Proof.
  intros Hb Hz.
  assert (E : b_norm A b = Ok (map (fun _ => nan) bh)).
  { unfold b_norm. rewrite Hb. cbn [bind]. f_equal.
    unfold norm. rewrite (dotv_float_zero bh Hz).
    change (sqrtv 0%float) with 0%float.
    now apply vdiv_float_zero. }
  split; [exact E|]. rewrite E. discriminate.
Qed.

Lemma b_norm_of_zero_is_nan_witness :
  b_norm A4_float [0; 0; 0; 0]%float = Ok [nan; nan; nan; nan]
  /\ b_norm A4_float [0; 0; 0; 0]%float <> Raise ZeroDivisionError.
Proof.
  apply (b_norm_of_zero_is_nan A4_float [0; 0; 0; 0]%float
           [0; 0; 0; 0]%float).
  - vm_compute. reflexivity.
  - repeat constructor.
Defined.

(** The notebook's matrix with [b = 0]: the normalisation returns four NaN
    and raises no error. *)
Lemma b_norm_zero_rhs_returns_nan :
  b_herm A4_float [0; 0; 0; 0]%float = Ok [0; 0; 0; 0]%float
  /\ b_norm A4_float [0; 0; 0; 0]%float = Ok [nan; nan; nan; nan]
  /\ (forall e, b_norm A4_float [0; 0; 0; 0]%float <> Raise e).
Proof.
  split; [vm_compute; reflexivity|].
  assert (E : b_norm A4_float [0; 0; 0; 0]%float = Ok [nan; nan; nan; nan])
    by (vm_compute; reflexivity).
  split; [exact E|]. intros e. rewrite E. discriminate.
Qed.

(** ** The Hermitian system over the reals *)

Lemma matrix_4x4_inv {T : Type} `{Num T} (A : list (list T)) :
  is_matrix 4 4 A ->
  exists a00 a01 a02 a03 a10 a11 a12 a13 a20 a21 a22 a23 a30 a31 a32 a33,
    A = [[a00; a01; a02; a03]; [a10; a11; a12; a13];
         [a20; a21; a22; a23]; [a30; a31; a32; a33]].
Proof.
  intros [HL Hrows].
  destruct (length_4 A HL) as (r0 & r1 & r2 & r3 & ->).
  apply Forall_cons_iff in Hrows as [L0 Hrows].
  apply Forall_cons_iff in Hrows as [L1 Hrows].
  apply Forall_cons_iff in Hrows as [L2 Hrows].
  apply Forall_cons_iff in Hrows as [L3 _].
  destruct (length_4 r0 L0) as (a00 & a01 & a02 & a03 & ->).
  destruct (length_4 r1 L1) as (a10 & a11 & a12 & a13 & ->).
  destruct (length_4 r2 L2) as (a20 & a21 & a22 & a23 & ->).
  destruct (length_4 r3 L3) as (a30 & a31 & a32 & a33 & ->).
  now exists a00, a01, a02, a03, a10, a11, a12, a13,
             a20, a21, a22, a23, a30, a31, a32, a33.
Qed.

Ltac destruct_matrix_4x4 A HA :=
  destruct (matrix_4x4_inv A HA)
    as (a00 & a01 & a02 & a03 & a10 & a11 & a12 & a13
        & a20 & a21 & a22 & a23 & a30 & a31 & a32 & a33 & ->);
  clear HA.

Lemma A_herm_entries (A : list (list R)) :
  is_matrix 4 4 A ->
  exists Ah, A_herm A = Ok Ah /\ is_matrix 4 4 Ah
    /\ forall i j, i < 4 -> j < 4 ->
         nth j (nth i Ah []) 0%R = gram_plus_identity A i j.
Proof.
  intros HA. destruct_matrix_4x4 A HA.
  eexists. split; [reflexivity|]. split.
  - split; [reflexivity|]. repeat constructor.
  - intros i j Hi Hj.
    destruct i as [|[|[|[|i]]]]; try lia;
      destruct j as [|[|[|[|j]]]]; try lia;
      unfold gram_plus_identity, dotv;
      cbn -[Rplus Rmult IZR]; ring.
Qed.

Lemma A_herm_symmetric (A Ah : list (list R)) :
  is_matrix 4 4 A -> A_herm A = Ok Ah -> transpose Ah = Ah.
Proof.
  intros HA E. destruct_matrix_4x4 A HA.
  injection E as <-.
  unfold transpose, column, dotv. cbn -[Rplus Rmult IZR].
  repeat (f_equal; try ring).
Qed.

Lemma sq_nonneg (t : R) : (0 <= t * t)%R.
Proof. nra. Qed.

Lemma sq_pos (t : R) : t <> 0%R -> (0 < t * t)%R.
Proof. intros; nra. Qed.

Lemma A_herm_eigenvalues (A Ah : list (list R)) (lam : complex R) :
  is_matrix 4 4 A -> A_herm A = Ok Ah -> is_eigenvalue Ah lam ->
  (1 <= re lam /\ im lam = 0)%R.
Proof.
  intros HA E (vr & vi & Lr & Li & (k & Hk) & Hv).
  destruct_matrix_4x4 A HA.
  injection E as <-.
  cbn [length map range seq] in Lr, Li, Hv.
  destruct (length_4 vr Lr) as (p0 & p1 & p2 & p3 & ->).
  destruct (length_4 vi Li) as (q0 & q1 & q2 & q3 & ->).
  destruct lam as [a b]. cbn [re im] in *.
  pose proof (Hv 0 ltac:(lia)) as [E0 F0].
  pose proof (Hv 1 ltac:(lia)) as [E1 F1].
  pose proof (Hv 2 ltac:(lia)) as [E2 F2].
  pose proof (Hv 3 ltac:(lia)) as [E3 F3].
  clear Hv Lr Li.
  unfold dotv in *.
  cbn -[Rplus Rmult Rminus IZR] in E0, E1, E2, E3, F0, F1, F2, F3.
  set (N := (p0 * p0 + p1 * p1 + p2 * p2 + p3 * p3
             + (q0 * q0 + q1 * q1 + q2 * q2 + q3 * q3))%R).
  assert (HN : (0 < N)%R).
  { unfold N.
    pose proof (sq_nonneg p0); pose proof (sq_nonneg p1);
      pose proof (sq_nonneg p2); pose proof (sq_nonneg p3);
      pose proof (sq_nonneg q0); pose proof (sq_nonneg q1);
      pose proof (sq_nonneg q2); pose proof (sq_nonneg q3).
    destruct k as [|[|[|[|[|k]]]]]; cbn [nth] in Hk;
      destruct Hk as [Hk | Hk]; try (exfalso; apply Hk; reflexivity);
      apply sq_pos in Hk; lra. }
  set (Ap0 := (a00 * p0 + a01 * p1 + a02 * p2 + a03 * p3)%R).
  set (Ap1 := (a10 * p0 + a11 * p1 + a12 * p2 + a13 * p3)%R).
  set (Ap2 := (a20 * p0 + a21 * p1 + a22 * p2 + a23 * p3)%R).
  set (Ap3 := (a30 * p0 + a31 * p1 + a32 * p2 + a33 * p3)%R).
  set (Aq0 := (a00 * q0 + a01 * q1 + a02 * q2 + a03 * q3)%R).
  set (Aq1 := (a10 * q0 + a11 * q1 + a12 * q2 + a13 * q3)%R).
  set (Aq2 := (a20 * q0 + a21 * q1 + a22 * q2 + a23 * q3)%R).
  set (Aq3 := (a30 * q0 + a31 * q1 + a32 * q2 + a33 * q3)%R).
  set (S := (Ap0 * Ap0 + Ap1 * Ap1 + Ap2 * Ap2 + Ap3 * Ap3
             + (Aq0 * Aq0 + Aq1 * Aq1 + Aq2 * Aq2 + Aq3 * Aq3))%R).
  assert (HS : (0 <= S)%R).
  { unfold S.
    pose proof (sq_nonneg Ap0); pose proof (sq_nonneg Ap1);
      pose proof (sq_nonneg Ap2); pose proof (sq_nonneg Ap3);
      pose proof (sq_nonneg Aq0); pose proof (sq_nonneg Aq1);
      pose proof (sq_nonneg Aq2); pose proof (sq_nonneg Aq3). lra. }
  assert (Hre : (a * N = N + S)%R).
  { transitivity
      (p0 * (a * p0 - b * q0) + p1 * (a * p1 - b * q1)
       + p2 * (a * p2 - b * q2) + p3 * (a * p3 - b * q3)
       + (q0 * (b * p0 + a * q0) + q1 * (b * p1 + a * q1)
          + q2 * (b * p2 + a * q2) + q3 * (b * p3 + a * q3)))%R.
    - unfold N. ring.
    - rewrite <- E0, <- E1, <- E2, <- E3, <- F0, <- F1, <- F2, <- F3.
      unfold N, S, Ap0, Ap1, Ap2, Ap3, Aq0, Aq1, Aq2, Aq3. ring. }
  assert (Him : (b * N = 0)%R).
  { transitivity
      (p0 * (b * p0 + a * q0) + p1 * (b * p1 + a * q1)
       + p2 * (b * p2 + a * q2) + p3 * (b * p3 + a * q3)
       - (q0 * (a * p0 - b * q0) + q1 * (a * p1 - b * q1)
          + q2 * (a * p2 - b * q2) + q3 * (a * p3 - b * q3)))%R.
    - unfold N. ring.
    - rewrite <- E0, <- E1, <- E2, <- E3, <- F0, <- F1, <- F2, <- F3.
      ring. }
  split.
  - assert (0 <= (a - 1) * N)%R by lra.
    destruct (Rle_lt_dec 1 a) as [L | L]; [exact L|].
    exfalso. assert ((a - 1) * N < 0)%R by nra. lra.
  - apply Rmult_integral in Him. destruct Him; [assumption | lra].
Qed.

Lemma pymax_fold (l : list R) (x0 : R) :
  exists m, fold_left (fun m y => if gtb y m then y else m) l x0 = m
    /\ (m = x0 \/ In m l) /\ (x0 <= m)%R
    /\ forall y, In y l -> (y <= m)%R.
Proof.
  revert x0. induction l as [|y l IH]; intros x0; cbn [fold_left].
  - exists x0. repeat split; [now left | lra | intros y []].
  - cbn [gtb Num_R]. unfold Rgtb.
    destruct (Rlt_dec x0 y) as [L | L].
    + destruct (IH y) as (m & Em & [E | HI] & Hle & Hall);
        exists m; (split; [exact Em|]).
      * repeat split; [right; left; now rewrite E | lra |].
        intros z [<- | Hz]; [lra | now apply Hall].
      * repeat split; [right; now right | lra |].
        intros z [<- | Hz]; [lra | now apply Hall].
    + destruct (IH x0) as (m & Em & [E | HI] & Hle & Hall);
        exists m; (split; [exact Em|]).
      * repeat split; [now left | lra |].
        intros z [<- | Hz]; [lra | now apply Hall].
      * repeat split; [right; now right | lra |].
        intros z [<- | Hz]; [lra | now apply Hall].
Qed.

Lemma pymax_is_maximum (l : list R) :
  l <> [] ->
  exists m, pymax l = Ok m /\ In m l /\ forall y, In y l -> (y <= m)%R.
Proof.
  destruct l as [|x l]; [congruence|]. intros _.
  destruct (pymax_fold l x) as (m & Em & Hin & Hle & Hall).
  exists m. split; [cbn [pymax]; now rewrite Em|]. split.
  - destruct Hin as [-> | Hin]; [now left | now right].
  - intros y [<- | Hy]; [exact Hle | now apply Hall].
Qed.

Lemma b_herm_entries (A : list (list R)) (b : list R) :
  is_matrix 4 4 A -> length b = 4 ->
  b_herm A b = Ok (map (transpose_times A b) (range 4)).
Proof.
  intros HA Hb. destruct_matrix_4x4 A HA.
  destruct (length_4 b Hb) as (b0 & b1 & b2 & b3 & ->).
  unfold b_herm, matvec, transpose_times, dotv.
  cbn -[Rplus Rmult IZR]. repeat (f_equal; try ring).
Qed.

(** X14.  For every real 4-by-4 matrix [A] and vector [b] of
    length 4, the builder returns [A_herm] with entries those of
    [transpose A * A + I]; [A_herm] equals its transpose; every eigenvalue of
    [A_herm] is real and strictly greater than 0; [b_herm] is
    [transpose A * b]; and, for an [eigvals] that returns eigenvalues of its
    argument (at least one), [t0] is [2 * PI / lam_max] where [lam_max] is
    the largest real part of the values [eigvals] returns. *)
Theorem hermitian_system_of_4x4
  (eigvals : list (list R) -> list (complex R))
  (A : list (list R)) (b : list R) :
  is_matrix 4 4 A -> length b = 4 ->
  (forall Ah, A_herm A = Ok Ah ->
     eigvals Ah <> [] /\ Forall (is_eigenvalue Ah) (eigvals Ah)) ->
  exists Ah lmax,
    A_herm A = Ok Ah
    /\ (forall i j, i < 4 -> j < 4 ->
          nth j (nth i Ah []) 0%R = gram_plus_identity A i j)
    /\ transpose Ah = Ah
    /\ (forall lam, is_eigenvalue Ah lam -> (0 < re lam /\ im lam = 0)%R)
    /\ b_herm A b = Ok (map (transpose_times A b) (range 4))
    /\ lam_max eigvals A = Ok lmax
    /\ In lmax (map re (eigvals Ah))
    /\ (forall lam, In lam (eigvals Ah) -> (re lam <= lmax)%R)
    /\ (0 < lmax)%R
    /\ t0 eigvals A = Ok (2 * PI / lmax)%R.
Proof.
  intros HA Hb Hev.
  destruct (A_herm_entries A HA) as (Ah & EA & _ & Hentries).
  destruct (Hev Ah EA) as [Hne Heig].
  assert (Hne' : map re (eigvals Ah) <> []).
  { destruct (eigvals Ah); [congruence | discriminate]. }
  destruct (pymax_is_maximum _ Hne') as (lmax & Emax & Hin & Hmax).
  assert (Elam : lam_max eigvals A = Ok lmax).
  { unfold lam_max. rewrite EA. exact Emax. }
  assert (Hpos : forall lam, is_eigenvalue Ah lam ->
                             (0 < re lam /\ im lam = 0)%R).
  { intros lam Hl.
    destruct (A_herm_eigenvalues A Ah lam HA EA Hl). split; [lra | easy]. }
  exists Ah, lmax.
  split; [exact EA|]. split; [exact Hentries|].
  split; [now apply A_herm_symmetric with (A := A)|].
  split; [exact Hpos|].
  split; [now apply b_herm_entries|].
  split; [exact Elam|]. split; [exact Hin|].
  split; [intros lam Hl; apply Hmax; now apply in_map|].
  split.
  - apply in_map_iff in Hin as (lam & <- & Hl).
    rewrite Forall_forall in Heig. now apply Hpos, Heig.
  - unfold t0. rewrite Elam. reflexivity.
Qed.

Lemma dotv_zero_r (r v : list R) :
  dotv r (map (fun _ => 0%R) v) = 0%R.
Proof.
  unfold dotv. change (@zero R Num_R) with 0%R.
  revert v. induction r as [|x r IH]; intros [|y v]; try reflexivity.
  cbn [map combine fold_left fst snd add mul Num_R].
  replace (0 + x * 0)%R with 0%R by ring. apply IH.
Qed.

Lemma nth_map_zero (v : list R) (i : nat) :
  nth i (map (fun _ => 0%R) v) 0%R = 0%R.
Proof.
  revert i. induction v as [|y v IH]; intros [|i]; cbn [map nth]; auto.
Qed.

(** A real eigenvector for a real eigenvalue. *)
Lemma real_eigenpair (M : list (list R)) (l : R) (v : list R) :
  length v = length M ->
  (exists k, nth k v 0%R <> 0%R) ->
  (forall i, i < length M -> dotv (nth i M []) v = (l * nth i v 0)%R) ->
  is_eigenvalue M (mkC l 0%R).
Proof.
  intros Lv [k Hk] Hv.
  exists v, (map (fun _ => 0%R) v).
  split; [exact Lv|]. split; [now rewrite length_map|].
  split; [exists k; now left|].
  intros i Hi. cbn [re im]. rewrite dotv_zero_r, (Hv i Hi).
  split; [ring|].
  rewrite nth_map_zero. ring.
Qed.

Ltac eigen_rows :=
  let i := fresh "i" in
  let Hi := fresh "Hi" in
  intros i Hi; cbn [length] in Hi;
  destruct i as [|[|[|[|i]]]]; try lia;
  unfold dotv; cbn -[Rplus Rmult Rminus IZR]; lra.

Lemma A4_spectrum_sound (Ah : list (list R)) :
  A_herm A4_R = Ok Ah ->
  A4_spectrum <> [] /\ Forall (is_eigenvalue Ah) A4_spectrum.
Proof.
  destruct A4_R_value as [-> _]. intros E. injection E as <-.
  split; [discriminate|]. unfold A4_spectrum.
  repeat apply Forall_cons; [ | | | | apply Forall_nil].
  - apply (real_eigenpair _ 1%R [1; -1; -1; 1]%R); [reflexivity | |].
    + exists 0. cbn [nth]. lra.
    + eigen_rows.
  - apply (real_eigenpair _ 3%R [1; 0; 0; -1]%R); [reflexivity | |].
    + exists 0. cbn [nth]. lra.
    + eigen_rows.
  - apply (real_eigenpair _ 3%R [0; 1; -1; 0]%R); [reflexivity | |].
    + exists 1. cbn [nth]. lra.
    + eigen_rows.
  - apply (real_eigenpair _ 5%R [1; 1; 1; 1]%R); [reflexivity | |].
    + exists 0. cbn [nth]. lra.
    + eigen_rows.
Qed.

Lemma hermitian_system_of_4x4_witness :
  exists Ah lmax,
    A_herm A4_R = Ok Ah
    /\ (forall i j, i < 4 -> j < 4 ->
          nth j (nth i Ah []) 0%R = gram_plus_identity A4_R i j)
    /\ transpose Ah = Ah
    /\ (forall lam, is_eigenvalue Ah lam -> (0 < re lam /\ im lam = 0)%R)
    /\ b_herm A4_R b4_R = Ok (map (transpose_times A4_R b4_R) (range 4))
    /\ lam_max (fun _ => A4_spectrum) A4_R = Ok lmax
    /\ In lmax (map re A4_spectrum)
    /\ (forall lam, In lam A4_spectrum -> (re lam <= lmax)%R)
    /\ (0 < lmax)%R
    /\ t0 (fun _ => A4_spectrum) A4_R = Ok (2 * PI / lmax)%R.
Proof.
  apply (hermitian_system_of_4x4 (fun _ => A4_spectrum) A4_R b4_R).
  - apply A4_R_is_matrix.
  - apply A4_R_is_matrix.
  - apply A4_spectrum_sound.
Defined.

(** A matrix that does not have four columns: for the 1-by-2 matrix
    [(1 0)] the sum of the 2-by-2 product with [np.eye(4)] raises
    [ValueError], and no [A_herm] is returned. *)
Lemma A_herm_needs_four_columns :
  A_herm [[1; 0]]%R = Raise ValueError
  /\ forall Ah : list (list R), A_herm [[1; 0]]%R <> Ok Ah.
Proof.
  assert (E : A_herm [[1; 0]]%R = Raise ValueError) by reflexivity.
  split; [exact E|]. intros Ah. rewrite E. discriminate.
Qed.

(** ** The extraction: shapes *)

Section ExtractionShapes.
Context {T : Type} `{Num T}.

Lemma length_sum_axis0 (t : list (complex T)) :
  length (sum_axis0 t) = length t / 2.
Proof.
  unfold sum_axis0.
  rewrite length_map, length_combine, length_firstn, length_skipn.
  pose proof (Nat.div_mod_eq (length t) 2).
  pose proof (Nat.mod_upper_bound (length t) 2). lia.
Qed.

Lemma length_index_axis0_1 (t : list (complex T)) :
  length (index_axis0 1 t) = length t / 2.
Proof.
  unfold index_axis0. rewrite length_firstn, length_skipn.
  pose proof (Nat.div_mod_eq (length t) 2).
  pose proof (Nat.mod_upper_bound (length t) 2). lia.
Qed.

Lemma sys_amps_length (data : list (complex T)) :
  length data = 256 -> length (sys_amps data) = 4.
Proof.
  intros L. unfold sys_amps. cbn [Nat.iter nat_rect].
  repeat rewrite length_sum_axis0.
  rewrite length_index_axis0_1, L. reflexivity.
Qed.

Lemma sys_amps_four (data : list (complex T)) :
  length data = 256 -> exists v0 v1 v2 v3, sys_amps data = [v0; v1; v2; v3].
Proof. intros L. apply length_4. now apply sys_amps_length. Qed.

Lemma complex_eq (x y : complex T) : re x = re y -> im x = im y -> x = y.
Proof. destruct x, y. cbn. now intros -> ->. Qed.

End ExtractionShapes.

(** ** The extraction over the reals *)

Lemma cnorm_4 (v0 v1 v2 v3 : complex R) :
  cnorm [v0; v1; v2; v3] = R_sqrt.sqrt (sq_norm4 v0 v1 v2 v3).
Proof.
  unfold cnorm, dotv, sq_norm4.
  cbn -[Rplus Rmult R_sqrt.sqrt]. f_equal. ring.
Qed.

Lemma sq_norm4_nonneg (v0 v1 v2 v3 : complex R) :
  (0 <= sq_norm4 v0 v1 v2 v3)%R.
Proof.
  unfold sq_norm4.
  pose proof (sq_nonneg (re v0)); pose proof (sq_nonneg (re v1));
    pose proof (sq_nonneg (re v2)); pose proof (sq_nonneg (re v3));
    pose proof (sq_nonneg (im v0)); pose proof (sq_nonneg (im v1));
    pose proof (sq_nonneg (im v2)); pose proof (sq_nonneg (im v3)).
  lra.
Qed.

Lemma sq_norm4_scaled (v0 v1 v2 v3 : complex R) (s : R) :
  sq_norm4 (cmul_real v0 s) (cmul_real v1 s) (cmul_real v2 s)
    (cmul_real v3 s)
  = (s * s * sq_norm4 v0 v1 v2 v3)%R.
Proof. unfold sq_norm4, cmul_real. cbn -[Rplus Rmult]. ring. Qed.

(** Dividing by the norm gives unit norm, when the norm is not zero. *)
Lemma cnorm_normalized (v0 v1 v2 v3 : complex R) :
  let n := cnorm [v0; v1; v2; v3] in
  n <> 0%R ->
  cnorm [cdiv_real v0 n; cdiv_real v1 n; cdiv_real v2 n; cdiv_real v3 n]
  = 1%R.
Proof.
  intros n Hn. unfold n in *. clear n. rewrite !cnorm_4 in *.
  assert (HS : (0 <= sq_norm4 v0 v1 v2 v3)%R) by apply sq_norm4_nonneg.
  pose proof (sqrt_sqrt _ HS) as Hsq.
  replace (sq_norm4 (cdiv_real _ _) _ _ _) with 1%R; [apply sqrt_1|].
  transitivity
    (sq_norm4 v0 v1 v2 v3
     / (R_sqrt.sqrt (sq_norm4 v0 v1 v2 v3)
        * R_sqrt.sqrt (sq_norm4 v0 v1 v2 v3)))%R.
  - rewrite Hsq. field. intros E. apply Hn. rewrite E. apply sqrt_0.
  - generalize dependent (R_sqrt.sqrt (sq_norm4 v0 v1 v2 v3)).
    intros r Hr _. unfold sq_norm4, cdiv_real.
    cbn -[Rplus Rmult Rdiv]. field. exact Hr.
Qed.

(** Scaling by a real [s] scales the norm by [|s|]. *)
Lemma cnorm_scaled (v0 v1 v2 v3 : complex R) (s : R) :
  cnorm [cmul_real v0 s; cmul_real v1 s; cmul_real v2 s; cmul_real v3 s]
  = (Rabs s * cnorm [v0; v1; v2; v3])%R.
Proof.
  rewrite !cnorm_4, sq_norm4_scaled.
  rewrite sqrt_mult_alt by apply sq_nonneg.
  f_equal. fold (Rsqr s). apply sqrt_Rsqr_abs.
Qed.

Lemma rescale_re (x : R) : x <> 0%R -> (x * (1 / x) = 1)%R.
Proof. intros Hx. now field. Qed.

Lemma rescale_im (a b n : R) :
  (a / n)%R <> 0%R -> (b / n * (1 / (a / n)) = b / a)%R.
Proof.
  intros Hx.
  assert (Hn : n <> 0%R).
  { intros Hn. apply Hx. rewrite Hn. unfold Rdiv. rewrite Rinv_0. ring. }
  assert (Ha : a <> 0%R).
  { intros Ha. apply Hx. rewrite Ha. unfold Rdiv. ring. }
  now field.
Qed.

(** X15.  Over the reals, for every statevector of 256 amplitudes, the
    extraction reduces it to the four entries of [sys_amps], divides them by
    their Euclidean norm (the result has unit norm when that norm is not
    zero), multiplies them by [1 / Re vec[0]] (so that the real part of the
    reference amplitude becomes 1, and its imaginary part is divided by the
    same real part, not removed), applies the permutation [3, 1, 2, 0] and
    returns the real parts as a 2-by-2 array. *)
Theorem extraction_steps (data : list (complex R)) :
  length data = 256 ->
  exists v0 v1 v2 v3 : complex R,
    sys_amps data = [v0; v1; v2; v3]
    /\ let n := cnorm [v0; v1; v2; v3] in
       let w := map (fun z => cdiv_real z n) [v0; v1; v2; v3] in
       let s := (1 / re (cdiv_real v0 n))%R in
       let u := map (fun z => cmul_real z s) w in
       vec_normalized data = Ok w
       /\ (n <> 0%R -> cnorm w = 1%R)
       /\ vec_rescaled data = Ok u
       /\ (re (cdiv_real v0 n) <> 0%R ->
           re (nth 0 u czero) = 1%R
           /\ im (nth 0 u czero) = (im v0 / re v0)%R)
       /\ hhl_recon data
          = Ok [[re (nth 3 u czero); re (nth 1 u czero)];
                [re (nth 2 u czero); re (nth 0 u czero)]].
Proof.
  intros L.
  destruct (sys_amps_four data L) as (v0 & v1 & v2 & v3 & E).
  exists v0, v1, v2, v3. split; [exact E|].
  intros n w s u.
  assert (Ew : vec_normalized data = Ok w).
  { unfold vec_normalized, reshape_2x8. rewrite L. cbn [Nat.eqb bind].
    now rewrite E. }
  assert (Eu : vec_rescaled data = Ok u).
  { unfold vec_rescaled. rewrite Ew. reflexivity. }
  split; [exact Ew|]. split; [apply cnorm_normalized|].
  split; [exact Eu|]. split.
  - intros Hre. split.
    + apply rescale_re. exact Hre.
    + apply rescale_im. exact Hre.
  - unfold hhl_recon. rewrite Eu. reflexivity.
Qed.

Lemma state_256_length {T : Type} `{Num T} (k : nat) (a : complex T) :
  length (basis_state k a) = 256.
Proof. unfold basis_state. now rewrite length_map. Qed.

Lemma extraction_steps_witness :
  exists v0 v1 v2 v3 : complex R,
    sys_amps (basis_state 128 (mkC 1%R 0%R)) = [v0; v1; v2; v3]
    /\ let n := cnorm [v0; v1; v2; v3] in
       let w := map (fun z => cdiv_real z n) [v0; v1; v2; v3] in
       let s := (1 / re (cdiv_real v0 n))%R in
       let u := map (fun z => cmul_real z s) w in
       vec_normalized (basis_state 128 (mkC 1%R 0%R)) = Ok w
       /\ (n <> 0%R -> cnorm w = 1%R)
       /\ vec_rescaled (basis_state 128 (mkC 1%R 0%R)) = Ok u
       /\ (re (cdiv_real v0 n) <> 0%R ->
           re (nth 0 u czero) = 1%R
           /\ im (nth 0 u czero) = (im v0 / re v0)%R)
       /\ hhl_recon (basis_state 128 (mkC 1%R 0%R))
          = Ok [[re (nth 3 u czero); re (nth 1 u czero)];
                [re (nth 2 u czero); re (nth 0 u czero)]].
Proof.
  apply (extraction_steps (basis_state 128 (mkC 1%R 0%R))).
  apply state_256_length.
Defined.

(** On [two_amplitudes] (binary64) the rescaling leaves the reference
    amplitude [vec[0]] at [1 + i]: its imaginary part is not removed. *)
Lemma rescaled_reference_not_real :
  cnorm (sys_amps two_amplitudes) = 1%float
  /\ vec_rescaled two_amplitudes
     = Ok [mkC 1 1; mkC 1 1; mkC 0 0; mkC 0 0]%float
  /\ hhl_recon two_amplitudes = Ok [[0; 1]; [0; 1]]%float.
Proof. repeat split; vm_compute; reflexivity. Qed.

(** * Further properties of the notebook's code *)

(** ** ART: the rows the loop reads, and its errors *)

Lemma repeat_n_ext {S : Type} (f g : S -> result S) (n : nat) (s : S) :
  (forall x, f x = g x) -> repeat_n n f s = repeat_n n g s.
Proof.
  intros E. revert s. induction n as [|n IH]; intros s; [reflexivity|].
  cbn [repeat_n]. rewrite E. destruct (g s); cbn [bind]; auto.
Qed.

Lemma for_each_ext {S : Type} (f g : nat -> S -> result S) (l : list nat)
  (s : S) :
  (forall i x, In i l -> f i x = g i x) -> for_each l f s = for_each l g s.
Proof.
  revert s. induction l as [|i l IH]; intros s E; [reflexivity|].
  cbn [for_each]. rewrite (E i s) by now left.
  destruct (g i s); cbn [bind]; [|reflexivity].
  apply IH. intros j x Hj. apply E. now right.
Qed.

Section ArtRows.
Context {T : Type} `{Num T}.

Lemma art_row_firstn (A : list (list T)) (b : list T) (omega : T)
  (i : nat) (x : list T) :
  i < 4 ->
  art_row (firstn 4 A) (firstn 4 b) omega i x = art_row A b omega i x.
Proof.
  intros Hi. unfold art_row, getitem.
  rewrite !nth_error_firstn.
  apply Nat.ltb_lt in Hi. now rewrite Hi.
Qed.

(** X1.  The solver reads the first four rows of [A] and the first four
    entries of [b] only: whatever follows them does not change its outcome,
    be it a vector or an exception. *)
Theorem art_reads_four_rows (A : list (list T)) (b : list T) (N : nat)
  (omega : T) :
  art A b N omega = art (firstn 4 A) (firstn 4 b) N omega.
Proof.
  unfold art. apply repeat_n_ext. intros x.
  unfold art_sweep. apply for_each_ext.
  intros i y Hi. symmetry. apply art_row_firstn.
  unfold range in Hi. apply in_seq in Hi. lia.
Qed.

Lemma art_sweep_raises_on_short (A : list (list T)) (b : list T)
  (omega : T) (x : list T) :
  length A < 4 -> exists e, art_sweep A b omega x = Raise e.
Proof.
  intros HA. unfold art_sweep, range. cbn [seq for_each].
  assert (Hend : forall i y, length A <= i ->
                   art_row A b omega i y = Raise IndexError).
  { intros i y Hi. unfold art_row, getitem.
    apply nth_error_None in Hi. now rewrite Hi. }
  destruct (art_row A b omega 0 x) as [x1|e] eqn:E0;
    [|now exists e]. cbn [bind].
  destruct (art_row A b omega 1 x1) as [x2|e] eqn:E1;
    [|now exists e]. cbn [bind].
  destruct (art_row A b omega 2 x2) as [x3|e] eqn:E2;
    [|now exists e]. cbn [bind].
  rewrite (Hend 3 x3) by lia. now exists IndexError.
Qed.

Lemma art_sweep_index_error (A : list (list T)) (b : list T)
  (omega : T) (x : list T) :
  length A < 4 -> length A <= length b -> length x = 4 ->
  Forall (fun r => length r = 4) A ->
  art_sweep A b omega x = Raise IndexError.
Proof.
  intros HA Hb Hx Hrows. unfold art_sweep, range. cbn [seq for_each].
  assert (Hend : forall i y, length A <= i ->
                   art_row A b omega i y = Raise IndexError).
  { intros i y Hi. unfold art_row, getitem.
    apply nth_error_None in Hi. now rewrite Hi. }
  assert (Hstep : forall i y, i < length A -> length y = 4 ->
            exists y', art_row A b omega i y = Ok y' /\ length y' = 4).
  { intros i y Hi Hy.
    destruct (nth_error A i) as [a|] eqn:Ea;
      [|apply nth_error_None in Ea; lia].
    destruct (nth_error b i) as [bi|] eqn:Eb;
      [|apply nth_error_None in Eb; lia].
    assert (La : length a = 4).
    { rewrite Forall_forall in Hrows. apply Hrows.
      now apply nth_error_In with (n := i). }
    exists (row_update omega y (a, bi)). split.
    - apply art_row_is_row_update; congruence.
    - rewrite length_row_update; congruence. }
  destruct (Nat.lt_ge_cases 0 (length A)) as [L0 | L0];
    [|now rewrite (Hend 0 x L0)].
  destruct (Hstep 0 x L0 Hx) as (x1 & -> & Hx1). cbn [bind].
  destruct (Nat.lt_ge_cases 1 (length A)) as [L1 | L1];
    [|now rewrite (Hend 1 x1 L1)].
  destruct (Hstep 1 x1 L1 Hx1) as (x2 & -> & Hx2). cbn [bind].
  destruct (Nat.lt_ge_cases 2 (length A)) as [L2 | L2];
    [|now rewrite (Hend 2 x2 L2)].
  destruct (Hstep 2 x2 L2 Hx2) as (x3 & -> & Hx3). cbn [bind].
  now rewrite (Hend 3 x3) by lia.
Qed.

(** X2.  With fewer than four rows and at least one sweep the solver
    returns no vector: the sweep raises.  When the rows that are there have
    length 4 and [b] has an entry for each of them, the exception is the
    [IndexError] of [A4[i]] at the first missing row. *)
Theorem art_needs_four_rows (A : list (list T)) (b : list T) (N : nat)
  (omega : T) :
  length A < 4 ->
  (exists e, art A b (Datatypes.S N) omega = Raise e)
  /\ (length A <= length b -> Forall (fun r => length r = 4) A ->
      art A b (Datatypes.S N) omega = Raise IndexError).
Proof.
  intros HA. unfold art. cbn [repeat_n]. split.
  - destruct (art_sweep_raises_on_short A b omega (zeros 4) HA) as [e ->].
    now exists e.
  - intros Hb Hrows.
    now rewrite (art_sweep_index_error A b omega (zeros 4) HA Hb
                   (length_zeros 4) Hrows).
Qed.

End ArtRows.

Lemma art_needs_four_rows_witness :
  (exists e, art [[1; 0; 1; 0]; [0; 1; 0; 1]]%float [4; 6]%float 1 1%float
             = Raise e)
  /\ (2 <= 2 -> Forall (fun r => length r = 4) [[1; 0; 1; 0]; [0; 1; 0; 1]]%float ->
      art [[1; 0; 1; 0]; [0; 1; 0; 1]]%float [4; 6]%float 1 1%float
      = Raise IndexError).
Proof.
  apply (art_needs_four_rows [[1; 0; 1; 0]; [0; 1; 0; 1]]%float
           [4; 6]%float 0 1%float).
  cbn [length]. lia.
Defined.

(** ** ART over the reals: what one row step does to the residual *)

Lemma fold_dot_acc (l : list (R * R)) (acc : R) :
  fold_left (fun acc p => add acc (mul (fst p) (snd p))) l acc
  = (acc + fold_left (fun acc p => add acc (mul (fst p) (snd p))) l 0)%R.
Proof.
  revert acc. induction l as [|p l IH]; intros acc; cbn [fold_left].
  - cbn. ring.
  - rewrite IH. rewrite (IH (add 0%R _)). cbn [add mul Num_R]. ring.
Qed.

Lemma dotv_cons (a b : R) (u v : list R) :
  dotv (a :: u) (b :: v) = (a * b + dotv u v)%R.
Proof.
  unfold dotv. cbn [combine fold_left fst snd zero Num_R].
  rewrite fold_dot_acc. cbn [add mul Num_R]. ring.
Qed.

Lemma dotv_nil_l (v : list R) : dotv [] v = 0%R.
Proof. reflexivity. Qed.

Lemma dotv_self_nonneg (v : list R) : (0 <= dotv v v)%R.
Proof.
  induction v as [|x v IH]; [rewrite dotv_nil_l; lra|].
  rewrite dotv_cons. pose proof (sq_nonneg x). lra.
Qed.

Lemma dotv_vadd_scale (a x : list R) (s : R) :
  length a = length x ->
  dotv a (vadd x (scale s a)) = (dotv a x + s * dotv a a)%R.
Proof.
  revert x. induction a as [|a0 a IH]; intros [|x0 x] L; try discriminate.
  - cbn. ring.
  - unfold vadd, scale in *. cbn [map combine fst snd].
    rewrite !dotv_cons. rewrite IH by (cbn in L; lia).
    cbn [add mul Num_R]. ring.
Qed.

Lemma vadd_scale_zero (a x : list R) :
  length a = length x -> vadd x (scale 0%R a) = x.
Proof.
  revert x. induction a as [|a0 a IH]; intros [|x0 x] L; try discriminate.
  - reflexivity.
  - unfold vadd, scale in *. cbn [map combine fst snd].
    rewrite IH by (cbn in L; lia). f_equal. cbn [add mul Num_R]. ring.
Qed.

Lemma row_update_residual (a x : list R) (bi omega : R) :
  length a = length x -> (0 < dotv a a)%R ->
  dotv a (row_update omega x (a, bi))
  = (dotv a x + omega * (bi - dotv a x))%R.
Proof.
  intros L Hn. unfold row_update. cbn [fst snd gtb Num_R].
  rewrite Rgtb_true by exact Hn.
  rewrite dotv_vadd_scale by exact L.
  cbn [mul div sub Num_R]. field. lra.
Qed.

(** X3.  Over the reals, the step of the loop for a row [a] of positive
    squared norm returns a vector, and multiplies the residual [b_i - a . x]
    of that row by [1 - relax]; with [relax = 1] the new [x] satisfies the
    equation of the row exactly. *)
Theorem art_row_relaxes_residual (A : list (list R)) (b : list R)
  (relax : R) (i : nat) (x a : list R) (bi : R) :
  nth_error A i = Some a -> nth_error b i = Some bi ->
  length a = length x -> (0 < dotv a a)%R ->
  exists x',
    art_row A b relax i x = Ok x'
    /\ (bi - dotv a x' = (1 - relax) * (bi - dotv a x))%R
    /\ (relax = 1%R -> dotv a x' = bi).
Proof.
  intros Ha Hb L Hn. exists (row_update relax x (a, bi)).
  split; [now apply art_row_is_row_update|].
  rewrite row_update_residual by assumption.
  split; [ring | intros ->; ring].
Qed.

Lemma art_row_relaxes_residual_witness :
  exists x',
    art_row [[1; 0; 1; 0]]%R [4]%R (1 / 2)%R 0 [0; 0; 0; 0]%R = Ok x'
    /\ (4 - dotv [1; 0; 1; 0]%R x'
        = (1 - 1 / 2) * (4 - dotv [1; 0; 1; 0]%R [0; 0; 0; 0]%R))%R
    /\ ((1 / 2)%R = 1%R -> dotv [1; 0; 1; 0]%R x' = 4%R).
Proof.
  apply (art_row_relaxes_residual [[1; 0; 1; 0]]%R [4]%R (1 / 2)%R 0
           [0; 0; 0; 0]%R [1; 0; 1; 0]%R 4%R).
  - reflexivity.
  - reflexivity.
  - reflexivity.
  - rewrite !dotv_cons, dotv_nil_l. lra.
Defined.

Lemma row_update_keeps_solution (a x : list R) (bi omega : R) :
  length a = length x -> dotv a x = bi -> row_update omega x (a, bi) = x.
Proof.
  intros L E. unfold row_update. cbn [fst snd].
  destruct (gtb (dotv a a) zero); [|reflexivity].
  rewrite E. cbn [mul div sub Num_R].
  replace (omega * ((bi - bi) / dotv a a))%R with 0%R
    by (unfold Rdiv; ring).
  now apply vadd_scale_zero.
Qed.

Lemma sweep_rows_keeps_solution (A : list (list R)) (b x : list R)
  (omega : R) :
  Forall2 (fun a bi => length a = length x /\ dotv a x = bi) A b ->
  sweep_rows A b omega x = x.
Proof.
  unfold sweep_rows. intros HF.
  induction HF as [|a bi A b [L E] _ IH]; [reflexivity|].
  cbn [combine fold_left].
  rewrite (row_update_keeps_solution a x bi omega L E). exact IH.
Qed.

(** X4.  Over the reals, a vector that solves the four equations is a fixed
    point of the solver's sweep, for every relaxation factor: sweeping again
    changes nothing. *)
Theorem art_sweep_keeps_solution (A : list (list R)) (b x : list R)
  (omega : R) :
  is_matrix 4 4 A -> length b = 4 -> length x = 4 ->
  Forall2 (fun a bi => dotv a x = bi) A b ->
  art_sweep A b omega x = Ok x
  /\ forall N, repeat_n N (art_sweep A b omega) x = Ok x.
Proof.
  intros HA Hb Hx Hsol.
  assert (Hfix : sweep_rows A b omega x = x).
  { apply sweep_rows_keeps_solution.
    destruct HA as [_ Hrows]. clear Hb.
    induction Hsol as [|a bi A b E _ IH]; constructor.
    - split; [|exact E]. apply Forall_cons_iff in Hrows as [L _].
      congruence.
    - apply IH. now apply Forall_cons_iff in Hrows as [_ Hrows]. }
  assert (Hsweep : art_sweep A b omega x = Ok x).
  { destruct (art_sweep_is_sweep_rows A b omega x HA Hb Hx) as [E _].
    now rewrite E, Hfix. }
  split; [exact Hsweep|].
  intros N. induction N as [|N IH]; [reflexivity|].
  cbn [repeat_n]. rewrite Hsweep. exact IH.
Qed.

Lemma art_sweep_keeps_solution_witness :
  art_sweep A4_R b4_R 1%R [1; 2; 3; 4]%R = Ok [1; 2; 3; 4]%R
  /\ forall N, repeat_n N (art_sweep A4_R b4_R 1%R) [1; 2; 3; 4]%R
               = Ok [1; 2; 3; 4]%R.
Proof.
  apply (art_sweep_keeps_solution A4_R b4_R [1; 2; 3; 4]%R 1%R).
  - apply A4_R_is_matrix.
  - apply A4_R_is_matrix.
  - reflexivity.
  - destruct A4_R_value as [-> ->].
    repeat constructor; rewrite !dotv_cons, dotv_nil_l; lra.
Defined.

(** ** ART: the length of the iterate *)

Section ArtLength.
Context {T : Type} `{Num T}.

Lemma art_row_keeps_length (A : list (list T)) (b : list T) (omega : T)
  (i : nat) (x x' : list T) :
  art_row A b omega i x = Ok x' -> length x' = length x.
Proof.
  unfold art_row, dot, iadd.
  destruct (getitem A i) as [a|]; [|discriminate]. cbn [bind].
  rewrite Nat.eqb_refl. cbn [bind].
  destruct (gtb (dotv a a) zero); [|now intros [= <-]].
  destruct (getitem b i) as [bi|]; [|discriminate]. cbn [bind].
  destruct (Nat.eqb_spec (length a) (length x)) as [L | L];
    [|discriminate]. cbn [bind].
  unfold scale. rewrite length_map, L, Nat.eqb_refl.
  intros [= <-]. apply length_vadd. now rewrite length_map.
Qed.

Lemma art_sweep_keeps_length (A : list (list T)) (b : list T) (omega : T)
  (x x' : list T) :
  art_sweep A b omega x = Ok x' -> length x' = length x.
Proof.
  unfold art_sweep, range. cbn [seq for_each].
  destruct (art_row A b omega 0 x) as [x1|] eqn:E0; [|discriminate].
  cbn [bind].
  destruct (art_row A b omega 1 x1) as [x2|] eqn:E1; [|discriminate].
  cbn [bind].
  destruct (art_row A b omega 2 x2) as [x3|] eqn:E2; [|discriminate].
  cbn [bind].
  destruct (art_row A b omega 3 x3) as [x4|] eqn:E3; [|discriminate].
  cbn [bind]. intros [= <-].
  apply art_row_keeps_length in E0, E1, E2, E3. congruence.
Qed.

(** X23.  Whatever the shapes of [A] and [b], a vector that the solver
    returns has length 4: no broadcast ever changes the length of [x_art]. *)
Theorem art_returns_length_4 (A : list (list T)) (b : list T) (N : nat)
  (omega : T) (x : list T) :
  art A b N omega = Ok x -> length x = 4.
Proof.
  unfold art.
  assert (G : forall n s, length s = 4 ->
                repeat_n n (art_sweep A b omega) s = Ok x -> length x = 4).
  { induction n as [|n IH]; intros s Ls; cbn [repeat_n].
    - now intros [= <-].
    - destruct (art_sweep A b omega s) as [s'|] eqn:E; [|discriminate].
      cbn [bind]. apply IH.
      apply art_sweep_keeps_length in E. congruence. }
  apply G. apply length_zeros.
Qed.

End ArtLength.

Lemma art_returns_length_4_witness :
  art A4_float b4_float 10 1%float = Ok [1; 2; 3; 4]%float
  /\ length [1; 2; 3; 4]%float = 4.
Proof.
  assert (E : art A4_float b4_float 10 1%float = Ok [1; 2; 3; 4]%float)
    by (vm_compute; reflexivity).
  split; [exact E|].
  exact (art_returns_length_4 A4_float b4_float 10 1%float _ E).
Defined.

(** ** ART over the reals: the distance to a solution *)

Lemma dist2_cons (x0 y0 : R) (x y : list R) :
  dist2 (x0 :: x) (y0 :: y) = ((x0 - y0) * (x0 - y0) + dist2 x y)%R.
Proof. unfold dist2, vsub. cbn [combine map fst snd]. apply dotv_cons. Qed.

Lemma dist2_nonneg (x y : list R) : (0 <= dist2 x y)%R.
Proof. apply dotv_self_nonneg. Qed.

Lemma dist2_step (a x xs : list R) (s : R) :
  length a = length x -> length a = length xs ->
  dist2 (vadd x (scale s a)) xs
  = (dist2 x xs + 2 * s * (dotv a x - dotv a xs) + s * s * dotv a a)%R.
Proof.
  revert x xs.
  induction a as [|a0 a IH]; intros [|x0 x] [|y0 y] Lx Ly;
    try discriminate.
  - unfold dist2, vsub. cbn [scale map vadd combine].
    rewrite !dotv_nil_l. ring.
  - unfold vadd, scale in *. cbn [map combine fst snd].
    rewrite !dist2_cons, !dotv_cons.
    rewrite IH by (cbn in Lx, Ly; lia).
    cbn [add mul Num_R]. ring.
Qed.

Lemma row_update_distance (a x xs : list R) (bi omega : R) :
  length a = length x -> length a = length xs -> dotv a xs = bi ->
  (0 < dotv a a)%R ->
  dist2 (row_update omega x (a, bi)) xs
  = (dist2 x xs
     - omega * (2 - omega) * ((bi - dotv a x) * (bi - dotv a x)) / dotv a a)%R.
Proof.
  intros Lx Ly E Hn. unfold row_update. cbn [fst snd gtb Num_R].
  rewrite Rgtb_true by exact Hn.
  rewrite dist2_step by assumption.
  rewrite E. cbn [mul div sub Num_R]. field. lra.
Qed.

Lemma row_update_not_farther (a x xs : list R) (bi omega : R) :
  length a = length x -> length a = length xs -> dotv a xs = bi ->
  (0 <= omega <= 2)%R ->
  (dist2 (row_update omega x (a, bi)) xs <= dist2 x xs)%R.
Proof.
  intros Lx Ly E Hw.
  destruct (Rlt_dec 0 (dotv a a)) as [Hn | Hn].
  - rewrite row_update_distance by assumption.
    assert (0 <= omega * (2 - omega) * ((bi - dotv a x) * (bi - dotv a x))
                 / dotv a a)%R; [|lra].
    apply Rmult_le_pos; [|left; now apply Rinv_0_lt_compat].
    apply Rmult_le_pos; [nra | apply sq_nonneg].
  - unfold row_update. cbn [fst snd gtb Num_R].
    rewrite Rgtb_false by exact Hn. lra.
Qed.

(** X26.  Over the reals, when [xs] satisfies the equation of row [i], the
    step of the loop for that row (of positive squared norm) changes the
    squared distance from [x] to [xs] by exactly
    [- relax * (2 - relax) * (b_i - a_i . x)^2 / |a_i|^2]; so for
    [0 <= relax <= 2] the step never moves [x] away from a solution. *)
Theorem art_row_distance_to_solution (A : list (list R)) (b : list R)
  (relax : R) (i : nat) (x xs a : list R) (bi : R) :
  nth_error A i = Some a -> nth_error b i = Some bi ->
  length a = length x -> length a = length xs -> dotv a xs = bi ->
  (0 < dotv a a)%R ->
  exists x',
    art_row A b relax i x = Ok x'
    /\ dist2 x' xs
       = (dist2 x xs
          - relax * (2 - relax) * ((bi - dotv a x) * (bi - dotv a x))
            / dotv a a)%R
    /\ ((0 <= relax <= 2)%R -> (dist2 x' xs <= dist2 x xs)%R).
Proof.
  intros Ha Hb Lx Ly E Hn. exists (row_update relax x (a, bi)).
  split; [now apply art_row_is_row_update|].
  split; [now apply row_update_distance|].
  intros Hw. now apply row_update_not_farther.
Qed.

Lemma art_row_distance_to_solution_witness :
  exists x',
    art_row [[1; 0; 1; 0]]%R [4]%R 1%R 0 [0; 0; 0; 0]%R = Ok x'
    /\ dist2 x' [1; 2; 3; 4]%R
       = (dist2 [0; 0; 0; 0] [1; 2; 3; 4]
          - 1 * (2 - 1) * ((4 - dotv [1; 0; 1; 0] [0; 0; 0; 0])
                           * (4 - dotv [1; 0; 1; 0] [0; 0; 0; 0]))
            / dotv [1; 0; 1; 0] [1; 0; 1; 0])%R
    /\ ((0 <= 1 <= 2)%R ->
        (dist2 x' [1; 2; 3; 4]%R <= dist2 [0; 0; 0; 0] [1; 2; 3; 4])%R).
Proof.
  apply (art_row_distance_to_solution [[1; 0; 1; 0]]%R [4]%R 1%R 0
           [0; 0; 0; 0]%R [1; 2; 3; 4]%R [1; 0; 1; 0]%R 4%R).
  - reflexivity.
  - reflexivity.
  - reflexivity.
  - reflexivity.
  - rewrite !dotv_cons, dotv_nil_l. lra.
  - rewrite !dotv_cons, dotv_nil_l. lra.
Defined.

Lemma sweep_rows_not_farther (A : list (list R)) (b x xs : list R)
  (omega : R) :
  (0 <= omega <= 2)%R -> length x = length xs ->
  Forall2 (fun a bi => length a = length xs /\ dotv a xs = bi) A b ->
  length (sweep_rows A b omega x) = length xs
  /\ (dist2 (sweep_rows A b omega x) xs <= dist2 x xs)%R.
Proof.
  intros Hw Lx HF. unfold sweep_rows. revert x Lx.
  induction HF as [|a bi A b [La E] _ IH]; intros x Lx.
  - cbn [combine fold_left]. split; [exact Lx | lra].
  - cbn [combine fold_left].
    assert (L1 : length (row_update omega x (a, bi)) = length xs).
    { rewrite length_row_update; congruence. }
    destruct (IH _ L1) as [L2 D2]. split; [exact L2|].
    assert (D1 : (dist2 (row_update omega x (a, bi)) xs <= dist2 x xs)%R).
    { apply row_update_not_farther; congruence. }
    lra.
Qed.

(** X27.  Over the reals, for a 4-by-4 system that has a solution [xs] and
    a relaxation factor between 0 and 2, the solver returns a vector after
    any number of sweeps, and that vector is never farther from [xs] than
    the starting vector 0 is. *)
Theorem art_stays_near_solutions (A : list (list R)) (b xs : list R)
  (N : nat) (omega : R) :
  is_matrix 4 4 A -> length b = 4 -> length xs = 4 ->
  Forall2 (fun a bi => dotv a xs = bi) A b ->
  (0 <= omega <= 2)%R ->
  exists x,
    art A b N omega = Ok x
    /\ (dist2 x xs <= dist2 (zeros 4) xs)%R.
Proof.
  intros HA Hb Lxs Hsol Hw.
  exists (art_spec A b N omega).
  split; [now apply art_is_art_spec|].
  unfold art_spec. rewrite (ncols_4 3 A HA).
  assert (HF : Forall2 (fun a bi => length a = length xs /\ dotv a xs = bi)
                 A b).
  { destruct HA as [_ Hrows]. clear Hb.
    induction Hsol as [|a bi A b E _ IH]; constructor.
    - split; [|exact E]. apply Forall_cons_iff in Hrows as [L _].
      congruence.
    - apply IH. now apply Forall_cons_iff in Hrows as [_ Hrows]. }
  assert (G : forall n,
             length (Nat.iter n (sweep_rows A b omega) (zeros 4))
             = length xs
             /\ (dist2 (Nat.iter n (sweep_rows A b omega) (zeros 4)) xs
                 <= dist2 (zeros 4) xs)%R).
  { induction n as [|n [IL ID]].
    - cbn [Nat.iter nat_rect]. split; [now rewrite length_zeros | lra].
    - change (Nat.iter (Datatypes.S n) (sweep_rows A b omega) (zeros 4))
        with (sweep_rows A b omega
                (Nat.iter n (sweep_rows A b omega) (zeros 4))).
      destruct (sweep_rows_not_farther A b _ xs omega Hw IL HF) as [L D].
      split; [exact L | lra]. }
  apply G.
Qed.

Lemma art_stays_near_solutions_witness :
  exists x,
    art A4_R b4_R 10 1%R = Ok x
    /\ (dist2 x [1; 2; 3; 4]%R <= dist2 (zeros 4) [1; 2; 3; 4]%R)%R.
Proof.
  apply (art_stays_near_solutions A4_R b4_R [1; 2; 3; 4]%R 10 1%R).
  - apply A4_R_is_matrix.
  - apply A4_R_is_matrix.
  - reflexivity.
  - destruct A4_R_value as [-> ->].
    repeat constructor; rewrite !dotv_cons, dotv_nil_l; lra.
  - lra.
Defined.

(** ** The Hermitian setup: shapes, unit norm, phases *)

Section HermitianShapes.
Context {T : Type} `{Num T}.

Lemma length_transpose (A : list (list T)) :
  length (transpose A) = ncols A.
Proof. unfold transpose, range. now rewrite length_map, length_seq. Qed.

Lemma ncols_transpose (A : list (list T)) :
  ncols A <> 0 -> ncols (transpose A) = length A.
Proof.
  intros Hn. unfold transpose, range.
  destruct (ncols A) as [|n]; [congruence|].
  cbn [seq map ncols]. unfold column. now rewrite length_map.
Qed.

Lemma broadcast_dim_4 (n : nat) :
  n <> 4 -> n <> 1 -> broadcast_dim n 4 = None.
Proof.
  intros H4 H1. unfold broadcast_dim.
  destruct (Nat.eqb_spec n 4); [congruence|].
  destruct (Nat.eqb_spec n 1); [congruence|]. reflexivity.
Qed.

(** X5.  [A_herm] is written for four columns: for a matrix with at least
    one row whose number of columns is neither 4 nor 1, the sum with
    [np.eye(4)] (or, without columns, the product) raises [ValueError]. *)
Theorem A_herm_wrong_columns (A : list (list T)) :
  A <> [] -> ncols A <> 4 -> ncols A <> 1 -> A_herm A = Raise ValueError.
Proof.
  intros HA H4 H1. unfold A_herm, matmul.
  destruct (Nat.eq_dec (ncols A) 0) as [E0 | E0].
  - assert (Et : transpose A = []).
    { unfold transpose. now rewrite E0. }
    rewrite Et. cbn [ncols].
    destruct A as [|r A]; [congruence|]. reflexivity.
  - rewrite (ncols_transpose A E0), Nat.eqb_refl. cbn [bind].
    unfold madd. rewrite length_map, length_transpose.
    change (length (eye 4)) with 4.
    now rewrite (broadcast_dim_4 (ncols A) H4 H1).
Qed.

(** X24.  [b_herm] needs one entry of [b] per row of [A]: for a matrix
    with at least one column and a [b] of another length the product raises
    [ValueError]; with the right length it returns one entry per column. *)
Theorem b_herm_shapes (A : list (list T)) (b : list T) :
  ncols A <> 0 ->
  (length b <> length A -> b_herm A b = Raise ValueError)
  /\ (length b = length A ->
      exists bh, b_herm A b = Ok bh /\ length bh = ncols A).
Proof.
  intros Hn. unfold b_herm, matvec. rewrite (ncols_transpose A Hn).
  split; intros Hb.
  - destruct (Nat.eqb_spec (length A) (length b)); [congruence|].
    reflexivity.
  - rewrite Hb, Nat.eqb_refl. eexists. split; [reflexivity|].
    now rewrite length_map, length_transpose.
Qed.

End HermitianShapes.

Lemma b_herm_shapes_witness :
  (length [1; 2]%float <> length A4_float ->
   b_herm A4_float [1; 2]%float = Raise ValueError)
  /\ (length [1; 2]%float = length A4_float ->
      exists bh, b_herm A4_float [1; 2]%float = Ok bh
                 /\ length bh = ncols A4_float).
Proof.
  apply (b_herm_shapes A4_float [1; 2]%float).
  vm_compute. discriminate.
Defined.

Lemma A_herm_wrong_columns_witness :
  A_herm [[1; 0]; [0; 1]]%float = Raise ValueError.
Proof.
  apply (A_herm_wrong_columns [[1; 0]; [0; 1]]%float).
  - discriminate.
  - cbn. lia.
  - cbn. lia.
Defined.

Lemma dotv_vdiv (v : list R) (n : R) :
  n <> 0%R -> dotv (vdiv v n) (vdiv v n) = (dotv v v / (n * n))%R.
Proof.
  intros Hn. unfold vdiv.
  induction v as [|x v IH]; cbn [map].
  - rewrite !dotv_nil_l. unfold Rdiv. ring.
  - rewrite !dotv_cons, IH. cbn [div Num_R]. now field.
Qed.

Lemma norm_vdiv_norm (v : list R) :
  norm v <> 0%R -> norm (vdiv v (norm v)) = 1%R.
Proof.
  intros Hn. unfold norm in *. cbn [sqrtv Num_R] in *.
  rewrite dotv_vdiv by exact Hn.
  rewrite sqrt_sqrt by apply dotv_self_nonneg.
  replace (dotv v v / dotv v v)%R with 1%R; [apply sqrt_1|].
  field. intros E. apply Hn. rewrite E. apply sqrt_0.
Qed.

(** X6.  Over the reals, when [b_herm] has a norm that is not zero,
    [b_norm] is returned and has Euclidean norm 1: it is a valid amplitude
    vector for the state preparation. *)
Theorem b_norm_has_unit_norm (A : list (list R)) (b bh : list R) :
  b_herm A b = Ok bh -> norm bh <> 0%R ->
  exists v, b_norm A b = Ok v /\ length v = length bh /\ norm v = 1%R.
Proof.
  intros Hb Hn. exists (vdiv bh (norm bh)). split.
  - unfold b_norm. now rewrite Hb.
  - split; [unfold vdiv; now rewrite length_map|].
    now apply norm_vdiv_norm.
Qed.

Lemma b_norm_has_unit_norm_witness :
  exists v, b_norm [[2; 0; 0; 0]]%R [1]%R = Ok v
            /\ length v = length [2; 0; 0; 0]%R /\ norm v = 1%R.
Proof.
  apply (b_norm_has_unit_norm [[2; 0; 0; 0]]%R [1]%R [2; 0; 0; 0]%R).
  - unfold b_herm, matvec, transpose, column, dotv.
    cbn -[Rplus Rmult IZR]. repeat (f_equal; try ring).
  - unfold norm. cbn [sqrtv Num_R].
    rewrite !dotv_cons, dotv_nil_l.
    replace (2 * 2 + (0 * 0 + (0 * 0 + (0 * 0 + 0))))%R with (2 * 2)%R
      by ring.
    rewrite sqrt_square by lra. lra.
Defined.

(** X7.  Python's [max] on the real parts: on an empty sequence it raises
    [ValueError]; otherwise it returns an entry of the sequence that no
    entry exceeds. *)
Theorem pymax_returns_the_largest (l : list R) :
  (l = [] -> pymax l = Raise ValueError)
  /\ (l <> [] ->
      exists m, pymax l = Ok m /\ In m l
                /\ forall y, In y l -> (y <= m)%R).
Proof.
  split; [now intros ->|]. apply pymax_is_maximum.
Qed.

(** X8.  Over the reals and for a 4-by-4 [A], with an [eigvals] that
    returns eigenvalues of its argument (at least one): [t0] is returned,
    [0 < t0 <= 2 * PI], the phase [lam * t0] of every returned eigenvalue
    lies in the interval from 0 (excluded) to [2 * PI] (included), and the
    phase of the largest one is exactly [2 * PI], a full turn. *)
Theorem eigenphases_within_a_turn
  (eigvals : list (list R) -> list (complex R)) (A : list (list R)) :
  is_matrix 4 4 A ->
  (forall Ah, A_herm A = Ok Ah ->
     eigvals Ah <> [] /\ Forall (is_eigenvalue Ah) (eigvals Ah)) ->
  exists Ah lmax t,
    A_herm A = Ok Ah /\ lam_max eigvals A = Ok lmax
    /\ t0 eigvals A = Ok t
    /\ (0 < t <= 2 * PI)%R
    /\ (forall lam, In lam (eigvals Ah) ->
          (0 < re lam * t <= 2 * PI)%R)
    /\ (lmax * t = 2 * PI)%R.
Proof.
  intros HA Hev.
  destruct (A_herm_entries A HA) as (Ah & EA & _ & _).
  destruct (Hev Ah EA) as [Hne Heig].
  rewrite Forall_forall in Heig.
  assert (Hne' : map re (eigvals Ah) <> []).
  { destruct (eigvals Ah); [congruence | discriminate]. }
  destruct (pymax_is_maximum _ Hne') as (lmax & Emax & Hin & Hmax).
  assert (Hge : forall lam, In lam (eigvals Ah) -> (1 <= re lam)%R).
  { intros lam Hl.
    now destruct (A_herm_eigenvalues A Ah lam HA EA (Heig lam Hl)). }
  assert (H1 : (1 <= lmax)%R).
  { apply in_map_iff in Hin as (lam & <- & Hl). now apply Hge. }
  assert (Elam : lam_max eigvals A = Ok lmax).
  { unfold lam_max. rewrite EA. exact Emax. }
  pose proof PI_RGT_0 as Hpi.
  set (t := (2 * PI / lmax)%R).
  assert (Ht : (lmax * t = 2 * PI)%R) by (unfold t; field; lra).
  assert (Htpos : (0 < t)%R).
  { unfold t. apply Rdiv_lt_0_compat; lra. }
  exists Ah, lmax, t.
  split; [exact EA|]. split; [exact Elam|].
  split; [unfold t0; now rewrite Elam|].
  split; [split; [exact Htpos | nra]|].
  split; [|exact Ht].
  intros lam Hl.
  assert (Hle : (re lam <= lmax)%R) by (apply Hmax; now apply in_map).
  pose proof (Hge lam Hl). split; nra.
Qed.

Lemma eigenphases_within_a_turn_witness :
  exists Ah lmax t,
    A_herm A4_R = Ok Ah /\ lam_max (fun _ => A4_spectrum) A4_R = Ok lmax
    /\ t0 (fun _ => A4_spectrum) A4_R = Ok t
    /\ (0 < t <= 2 * PI)%R
    /\ (forall lam, In lam A4_spectrum -> (0 < re lam * t <= 2 * PI)%R)
    /\ (lmax * t = 2 * PI)%R.
Proof.
  apply (eigenphases_within_a_turn (fun _ => A4_spectrum) A4_R).
  - apply A4_R_is_matrix.
  - apply A4_spectrum_sound.
Defined.

(** ** The extraction: zero input, the entries that are summed, the output *)





Section SumAxis.
Context {T : Type} `{Num T}.

Lemma nth_combine_map (f : complex T -> complex T -> complex T)
  (u v : list (complex T)) (j : nat) (d : complex T) :
  j < length u -> j < length v ->
  nth j (map (fun p => f (fst p) (snd p)) (combine u v)) d
  = f (nth j u d) (nth j v d).
Proof.
  revert v j. induction u as [|a u IH]; intros [|b v] [|j] Lu Lv;
    cbn [length] in *; try lia; cbn [combine map nth fst snd];
    [reflexivity|]. apply IH; lia.
Qed.

Lemma nth_sum_axis0 (t : list (complex T)) (h j : nat) :
  length t = 2 * h -> j < h ->
  nth j (sum_axis0 t) czero = cadd (nth j t czero) (nth (h + j) t czero).
Proof.
  intros L Hj. unfold sum_axis0.
  assert (Eh : length t / 2 = h).
  { rewrite L, Nat.mul_comm. apply Nat.div_mul. lia. }
  rewrite Eh.
  rewrite (nth_combine_map cadd) by
    (rewrite ?length_firstn, ?length_skipn; lia).
  rewrite nth_firstn. apply Nat.ltb_lt in Hj. rewrite Hj.
  now rewrite nth_skipn.
Qed.

Lemma nth_index_axis0_1 (t : list (complex T)) (h j : nat) :
  length t = 2 * h -> j < h ->
  nth j (index_axis0 1 t) czero = nth (h + j) t czero.
Proof.
  intros L Hj. unfold index_axis0.
  assert (Eh : length t / 2 = h).
  { rewrite L, Nat.mul_comm. apply Nat.div_mul. lia. }
  rewrite Eh, Nat.mul_1_l.
  rewrite nth_firstn. apply Nat.ltb_lt in Hj. rewrite Hj.
  now rewrite nth_skipn.
Qed.

End SumAxis.

Lemma nth_sys_amps (data : list (complex R)) (j : nat) :
  length data = 256 -> j < 4 ->
  nth j (sys_amps data) czero
  = csum (map (fun m => nth (128 + 4 * m + j) data czero) (range 32)).
Proof.
  intros L Hj. unfold sys_amps. cbn [Nat.iter nat_rect].
  set (t0 := index_axis0 1 data). set (t1 := sum_axis0 t0).
  set (t2 := sum_axis0 t1). set (t3 := sum_axis0 t2).
  set (t4 := sum_axis0 t3).
  assert (L0 : length t0 = 2 * 64)
    by (unfold t0; now rewrite length_index_axis0_1, L).
  assert (L1 : length t1 = 2 * 32)
    by (unfold t1; now rewrite length_sum_axis0, L0).
  assert (L2 : length t2 = 2 * 16)
    by (unfold t2; now rewrite length_sum_axis0, L1).
  assert (L3 : length t3 = 2 * 8)
    by (unfold t3; now rewrite length_sum_axis0, L2).
  assert (L4 : length t4 = 2 * 4)
    by (unfold t4; now rewrite length_sum_axis0, L3).
  assert (Ld : length data = 2 * 128) by exact L.
  destruct j as [|[|[|[|j]]]]; try lia;
    rewrite (nth_sum_axis0 t4 4) by (exact L4 || lia);
    unfold t4; rewrite !(nth_sum_axis0 t3 8) by (exact L3 || lia);
    unfold t3; rewrite !(nth_sum_axis0 t2 16) by (exact L2 || lia);
    unfold t2; rewrite !(nth_sum_axis0 t1 32) by (exact L1 || lia);
    unfold t1; rewrite !(nth_sum_axis0 t0 64) by (exact L0 || lia);
    unfold t0; rewrite !(nth_index_axis0_1 data 128) by (exact Ld || lia);
    cbn -[nth cadd czero];
    apply complex_eq; cbn -[nth Rplus]; ring.
Qed.

(** X10.  Over the reals, entry [j] of [sys_amps] is the sum of the 32
    amplitudes at the positions [128 + 4 * m + j], [m = 0 .. 31]: the
    positions of the second half of the statevector whose index is [j]
    modulo 4. *)
Theorem sys_amps_entries (data : list (complex R)) (j : nat) :
  length data = 256 -> j < 4 ->
  nth j (sys_amps data) czero
  = csum (map (fun m => nth (128 + 4 * m + j) data czero) (range 32)).
Proof. apply nth_sys_amps. Qed.

Lemma sys_amps_entries_witness :
  nth 0 (sys_amps (basis_state 128 (mkC 1%R 0%R))) czero
  = csum (map (fun m => nth (128 + 4 * m + 0)
                          (basis_state 128 (mkC 1%R 0%R)) czero)
              (range 32)).
Proof.
  apply (sys_amps_entries (basis_state 128 (mkC 1%R 0%R)) 0).
  - apply state_256_length.
  - lia.
Defined.

Lemma rescale_quot (a b n : R) :
  a <> 0%R -> n <> 0%R -> (b / n * (1 / (a / n)) = b / a)%R.
Proof. intros Ha Hn. now field. Qed.

Lemma cnorm_4_nonzero (v0 v1 v2 v3 : complex R) :
  re v0 <> 0%R -> cnorm [v0; v1; v2; v3] <> 0%R.
Proof.
  intros Hv. rewrite cnorm_4.
  assert (HS : (0 < sq_norm4 v0 v1 v2 v3)%R).
  { unfold sq_norm4.
    pose proof (sq_pos (re v0) Hv); pose proof (sq_nonneg (re v1));
      pose proof (sq_nonneg (re v2)); pose proof (sq_nonneg (re v3));
      pose proof (sq_nonneg (im v0)); pose proof (sq_nonneg (im v1));
      pose proof (sq_nonneg (im v2)); pose proof (sq_nonneg (im v3)).
    lra. }
  pose proof (sqrt_lt_R0 _ HS). lra.
Qed.

Lemma hhl_recon_quotients (data : list (complex R))
  (v0 v1 v2 v3 : complex R) :
  length data = 256 -> sys_amps data = [v0; v1; v2; v3] ->
  re v0 <> 0%R ->
  hhl_recon data
  = Ok [[re v3 / re v0; re v1 / re v0]; [re v2 / re v0; 1]]%R.
Proof.
  intros L E Hv.
  pose proof (cnorm_4_nonzero v0 v1 v2 v3 Hv) as Hn.
  unfold hhl_recon, vec_rescaled, vec_normalized, reshape_2x8.
  rewrite L. cbn [Nat.eqb bind]. rewrite E.
  generalize dependent (cnorm [v0; v1; v2; v3]). intros n Hn.
  cbn -[Rmult Rdiv IZR].
  rewrite !rescale_quot by assumption.
  repeat f_equal. now field.
Qed.

(** X11.  Over the reals, when the real part of the first entry of
    [sys_amps] is not zero, the reconstruction is the real parts of
    [sys_amps] divided by that real part, in the order 3, 1, 2, 0: the
    division by the norm cancels, and the entry in row 1, column 1 is 1. *)
Theorem hhl_recon_is_relative_to_reference (data : list (complex R)) :
  length data = 256 ->
  re (nth 0 (sys_amps data) czero) <> 0%R ->
  let q j := (re (nth j (sys_amps data) czero)
              / re (nth 0 (sys_amps data) czero))%R in
  hhl_recon data = Ok [[q 3; q 1]; [q 2; 1%R]].
Proof.
  intros L Hv q. unfold q.
  destruct (sys_amps_four data L) as (v0 & v1 & v2 & v3 & E).
  rewrite E in *. cbn [nth] in *.
  now apply hhl_recon_quotients.
Qed.

Lemma sys_amps_basis_128 :
  re (nth 0 (sys_amps (basis_state 128 (mkC 1%R 0%R))) czero) = 1%R.
Proof.
  rewrite (nth_sys_amps _ 0 (state_256_length 128 _)) by lia.
  unfold basis_state, csum. cbn -[Rplus]. ring.
Qed.

Lemma hhl_recon_is_relative_to_reference_witness :
  let data := basis_state 128 (mkC 1%R 0%R) in
  let q j := (re (nth j (sys_amps data) czero)
              / re (nth 0 (sys_amps data) czero))%R in
  hhl_recon data = Ok [[q 3; q 1]; [q 2; 1%R]].
Proof.
  apply (hhl_recon_is_relative_to_reference
           (basis_state 128 (mkC 1%R 0%R))).
  - apply state_256_length.
  - rewrite sys_amps_basis_128. lra.
Defined.

(** ** The extraction does not see a real factor of the statevector *)

Lemma cmul_real_cadd (x y : complex R) (c : R) :
  cmul_real (cadd x y) c = cadd (cmul_real x c) (cmul_real y c).
Proof. apply complex_eq; cbn; ring. Qed.

Lemma sum_axis0_scaled (t : list (complex R)) (c : R) :
  sum_axis0 (map (fun z => cmul_real z c) t)
  = map (fun z => cmul_real z c) (sum_axis0 t).
Proof.
  unfold sum_axis0. rewrite length_map, firstn_map, skipn_map.
  generalize (firstn (length t / 2) t) (skipn (length t / 2) t).
  intros u. induction u as [|a u IH]; intros [|b v]; try reflexivity.
  cbn [map combine fst snd]. rewrite IH. f_equal.
  symmetry. apply cmul_real_cadd.
Qed.

Lemma sys_amps_scaled (data : list (complex R)) (c : R) :
  sys_amps (map (fun z => cmul_real z c) data)
  = map (fun z => cmul_real z c) (sys_amps data).
Proof.
  unfold sys_amps. cbn [Nat.iter nat_rect].
  rewrite <- !sum_axis0_scaled. do 5 f_equal.
  unfold index_axis0. now rewrite length_map, skipn_map, firstn_map.
Qed.

Lemma quot_scaled (a b c : R) :
  c <> 0%R -> b <> 0%R -> (a * c / (b * c) = a / b)%R.
Proof. intros Hc Hb. now field. Qed.

(** X12.  Over the reals, multiplying every amplitude of the statevector by
    a real factor that is not zero does not change the reconstruction (when
    the real part of the first entry of [sys_amps] is not zero): the
    reconstruction carries no absolute scale, and no sign. *)
Theorem hhl_recon_ignores_real_factor (data : list (complex R)) (c : R) :
  length data = 256 -> c <> 0%R ->
  re (nth 0 (sys_amps data) czero) <> 0%R ->
  hhl_recon (map (fun z => cmul_real z c) data) = hhl_recon data.
Proof.
  intros L Hc Hv.
  destruct (sys_amps_four data L) as (v0 & v1 & v2 & v3 & E).
  rewrite E in Hv. cbn [nth] in Hv.
  rewrite (hhl_recon_quotients data v0 v1 v2 v3 L E Hv).
  rewrite (hhl_recon_quotients (map (fun z => cmul_real z c) data)
             (cmul_real v0 c) (cmul_real v1 c) (cmul_real v2 c)
             (cmul_real v3 c)).
  - cbn [cmul_real re mul Num_R].
    now rewrite !quot_scaled by assumption.
  - now rewrite length_map.
  - now rewrite sys_amps_scaled, E.
  - cbn [cmul_real re mul Num_R]. nra.
Qed.

Lemma hhl_recon_ignores_real_factor_witness :
  hhl_recon (map (fun z => cmul_real z (-2)%R)
               (basis_state 128 (mkC 1%R 0%R)))
  = hhl_recon (basis_state 128 (mkC 1%R 0%R)).
Proof.
  apply (hhl_recon_ignores_real_factor (basis_state 128 (mkC 1%R 0%R))
           (-2)%R).
  - apply state_256_length.
  - lra.
  - rewrite sys_amps_basis_128. lra.
Defined.

(** ** The entries of [sys_amps] in terms of the qubits

    [Statevector.data] of a state [psi] lists [psi 0 .. psi 255]. *)

Lemma nth_statevector_data (psi : nat -> complex R) (k : nat) :
  k < 256 -> nth k (statevector_data psi) czero = psi k.
Proof.
  intros Hk. unfold statevector_data, range.
  rewrite (nth_indep _ czero (psi 0)) by (now rewrite length_map, length_seq).
  rewrite map_nth. now rewrite seq_nth.
Qed.

(** ** The reordering of the amplitudes *)

(** X25.  The reordering [vec[[3,1,2,0]]] is its own inverse on a vector of
    four entries: applied twice it gives the vector back.  On a shorter
    vector it raises [IndexError]. *)
Theorem reorder_twice_is_identity {T : Type} `{Num T}
  (v : list (complex T)) :
  (length v = 4 ->
   (w <- take v [3; 1; 2; 0] ;; take w [3; 1; 2; 0]) = Ok v)
  /\ (length v < 4 -> take v [3; 1; 2; 0] = Raise IndexError).
Proof.
  split.
  - intros L. destruct (length_4 v L) as (a & b & c & d & ->). reflexivity.
  - intros L. cbn [take]. unfold getitem.
    assert (E : nth_error v 3 = None) by (apply nth_error_None; lia).
    now rewrite E.
Qed.

(** ** Bits of a basis index *)

Lemma flip_flip (q i : nat) : flip q (flip q i) = i.
Proof.
  unfold flip. now rewrite Nat.lxor_assoc, Nat.lxor_nilpotent, Nat.lxor_0_r.
Qed.

Lemma bit_flip_same (q i : nat) : bit (flip q i) q = negb (bit i q).
Proof.
  unfold bit, flip. rewrite Nat.lxor_spec, Nat.pow2_bits_true.
  now destruct (Nat.testbit i q).
Qed.

Lemma bit_flip_other (q r i : nat) : q <> r -> bit (flip q i) r = bit i r.
Proof.
  intros Hn. unfold bit, flip.
  rewrite Nat.lxor_spec, Nat.pow2_bits_false by exact Hn.
  now destruct (Nat.testbit i r).
Qed.

Lemma bit_flip (q r i : nat) :
  bit (flip q i) r = if Nat.eqb q r then negb (bit i r) else bit i r.
Proof.
  destruct (Nat.eqb_spec q r) as [-> | Hn];
    [apply bit_flip_same | now apply bit_flip_other].
Qed.

Lemma flip_comm (a b i : nat) : flip a (flip b i) = flip b (flip a i).
Proof.
  unfold flip. rewrite !Nat.lxor_assoc. f_equal. apply Nat.lxor_comm.
Qed.

(** ** Each gate and the gate that undoes it *)

Lemma sqrt2_inv_sq : (1 / R_sqrt.sqrt 2 * (1 / R_sqrt.sqrt 2) = 1 / 2)%R.
Proof.
  assert (H2 : (R_sqrt.sqrt 2 * R_sqrt.sqrt 2 = 2)%R)
    by (apply sqrt_sqrt; lra).
  assert (Hn : R_sqrt.sqrt 2 <> 0%R) by (intros E; rewrite E in H2; lra).
  replace (1 / R_sqrt.sqrt 2 * (1 / R_sqrt.sqrt 2))%R
    with (1 / (R_sqrt.sqrt 2 * R_sqrt.sqrt 2))%R by (now field).
  now rewrite H2.
Qed.

Lemma hadamard_twice (s a b : R) :
  (s * s = 1 / 2)%R ->
  (s * (s * (a + b) + s * (a - b)) = a)%R
  /\ (s * (s * (a + b) - s * (a - b)) = b)%R.
Proof.
  intros Hs. split.
  - transitivity (s * s * (2 * a))%R; [ring | rewrite Hs; field].
  - transitivity (s * s * (2 * b))%R; [ring | rewrite Hs; field].
Qed.

Lemma h_gate_h_gate (q : nat) (psi : state) :
  h_gate q (h_gate q psi) = psi.
Proof.
  apply functional_extensionality. intros i. unfold h_gate.
  rewrite bit_flip_same, flip_flip.
  pose proof sqrt2_inv_sq as Hs.
  set (s := (1 / R_sqrt.sqrt 2)%R) in *.
  destruct (bit i q); cbn [negb];
    apply complex_eq; cbn [re im cscale cadd csub add Num_R].
  - exact (proj2 (hadamard_twice s (re (psi (flip q i))) (re (psi i)) Hs)).
  - exact (proj2 (hadamard_twice s (im (psi (flip q i))) (im (psi i)) Hs)).
  - exact (proj1 (hadamard_twice s (re (psi i)) (re (psi (flip q i))) Hs)).
  - exact (proj1 (hadamard_twice s (im (psi i)) (im (psi (flip q i))) Hs)).
Qed.

Lemma cp_gate_undone (theta theta' : R) (c t : nat) (psi : state) :
  theta' = (- theta)%R ->
  cp_gate theta' c t (cp_gate theta c t psi) = psi.
Proof.
  intros ->. apply functional_extensionality. intros i. unfold cp_gate.
  destruct (bit i c && bit i t); [|reflexivity].
  rewrite cos_neg, sin_neg.
  pose proof (sin2_cos2 theta) as Hsc. unfold Rsqr in Hsc.
  apply complex_eq; cbn [re im cmul].
  - transitivity ((sin theta * sin theta + cos theta * cos theta)
                  * re (psi i))%R; [ring | rewrite Hsc; ring].
  - transitivity ((sin theta * sin theta + cos theta * cos theta)
                  * im (psi i))%R; [ring | rewrite Hsc; ring].
Qed.

Lemma x_gate_x_gate (q : nat) (psi : state) : x_gate q (x_gate q psi) = psi.
Proof.
  apply functional_extensionality. intros i. unfold x_gate.
  now rewrite flip_flip.
Qed.

Ltac split_eqb :=
  repeat match goal with
    | |- context [Nat.eqb ?x ?y] =>
        destruct (Nat.eqb_spec x y); subst; try lia
    end.

Lemma bit_swap_bits (a b i n : nat) :
  bit (swap_bits a b i) n
  = if Nat.eqb n a then bit i b
    else if Nat.eqb n b then bit i a else bit i n.
Proof.
  unfold swap_bits.
  destruct (Bool.eqb (bit i a) (bit i b)) eqn:E.
  - apply Bool.eqb_prop in E.
    destruct (Nat.eqb_spec n a) as [-> | Ha]; [exact E|].
    destruct (Nat.eqb_spec n b) as [-> | Hb]; [now symmetry | reflexivity].
  - apply Bool.eqb_false_iff in E.
    rewrite !bit_flip.
    split_eqb; try reflexivity;
      repeat match goal with
        | Hb : context [bit ?j ?x] |- _ => destruct (bit j x)
        | |- context [bit ?j ?x] => destruct (bit j x)
        end; try reflexivity; congruence.
Qed.

Lemma index_eq (i j : nat) : (forall n, bit i n = bit j n) -> i = j.
Proof. intros E. apply Nat.bits_inj. exact E. Qed.

Lemma swap_bits_involutive (a b i : nat) :
  swap_bits a b (swap_bits a b i) = i.
Proof.
  apply index_eq. intros n. rewrite !bit_swap_bits.
  split_eqb; rewrite ?Nat.eqb_refl; split_eqb; reflexivity.
Qed.

Lemma swap_bits_comm (a b c d i : nat) :
  a <> c -> a <> d -> b <> c -> b <> d ->
  swap_bits a b (swap_bits c d i) = swap_bits c d (swap_bits a b i).
Proof.
  intros Hac Had Hbc Hbd. apply index_eq. intros n.
  rewrite !bit_swap_bits. split_eqb; reflexivity.
Qed.

Lemma swap_gate_swap_gate (a b : nat) (psi : state) :
  swap_gate a b (swap_gate a b psi) = psi.
Proof.
  apply functional_extensionality. intros i. unfold swap_gate.
  now rewrite swap_bits_involutive.
Qed.

Lemma swap_gate_comm (a b c d : nat) (psi : state) :
  a <> c -> a <> d -> b <> c -> b <> d ->
  swap_gate a b (swap_gate c d psi) = swap_gate c d (swap_gate a b psi).
Proof.
  intros Hac Had Hbc Hbd. apply functional_extensionality. intros i.
  unfold swap_gate. now rewrite swap_bits_comm by auto.
Qed.

(** ** Running a circuit *)

Lemma run_none (circ : circuit) :
  fold_left
    (fun acc g =>
       match acc, gate_fun g with
       | Some s, Some f => Some (f s)
       | _, _ => None
       end) circ None = None.
Proof. induction circ as [|g circ IH]; [reflexivity | exact IH]. Qed.

Lemma run_app (c1 c2 : circuit) (psi : state) :
  run (c1 ++ c2) psi
  = match run c1 psi with
    | Some s => run c2 s
    | None => None
    end.
Proof.
  unfold run. rewrite fold_left_app.
  destruct (fold_left _ c1 (Some psi)); [reflexivity | apply run_none].
Qed.

Lemma qft_appends (circ : circuit) : qft circ = Ok (circ ++ gates_of qft).
Proof.
  unfold gates_of, qft. cbn -[PI Rdiv pow Ropp].
  now rewrite <- !app_assoc.
Qed.

Lemma qft_dg_appends (circ : circuit) :
  qft_dg circ = Ok (circ ++ gates_of qft_dg).
Proof.
  unfold gates_of, qft_dg. cbn -[PI Rdiv pow Ropp].
  now rewrite <- !app_assoc.
Qed.

Ltac cancel_gates :=
  repeat first
    [ rewrite h_gate_h_gate
    | rewrite cp_gate_undone by (unfold Rdiv; ring)
    | rewrite swap_gate_swap_gate ].

Lemma run_qft_qft_dg (s : state) :
  run (gates_of qft ++ gates_of qft_dg) s = Some s.
Proof.
  unfold gates_of, qft, qft_dg.
  cbn -[PI Rdiv pow Ropp h_gate cp_gate swap_gate].
  cancel_gates.
  rewrite (swap_gate_comm 1 5 2 4) by lia.
  now cancel_gates.
Qed.

Lemma run_qft_dg_qft (s : state) :
  run (gates_of qft_dg ++ gates_of qft) s = Some s.
Proof.
  unfold gates_of, qft, qft_dg.
  cbn -[PI Rdiv pow Ropp h_gate cp_gate swap_gate].
  rewrite (swap_gate_comm 1 5 2 4) by lia.
  now cancel_gates.
Qed.

(** X16.  Appending [qft] and then [qft_dg] to any circuit, or [qft_dg] and
    then [qft], raises nothing and leaves the meaning of the circuit as it
    was: on every statevector the two transforms undo each other exactly. *)
Theorem qft_and_qft_dg_cancel (circ : circuit) (psi : state) :
  (exists c, (c1 <- qft circ ;; qft_dg c1) = Ok c
             /\ run c psi = run circ psi)
  /\ (exists c, (c1 <- qft_dg circ ;; qft c1) = Ok c
                /\ run c psi = run circ psi).
Proof.
  split.
  - exists (circ ++ gates_of qft ++ gates_of qft_dg). split.
    + rewrite qft_appends. cbn [bind]. rewrite qft_dg_appends.
      now rewrite <- app_assoc.
    + rewrite run_app. destruct (run circ psi) as [s|]; [|reflexivity].
      apply run_qft_qft_dg.
  - exists (circ ++ gates_of qft_dg ++ gates_of qft). split.
    + rewrite qft_dg_appends. cbn [bind]. rewrite qft_appends.
      now rewrite <- app_assoc.
    + rewrite run_app. destruct (run circ psi) as [s|]; [|reflexivity].
      apply run_qft_dg_qft.
Qed.

(** ** X gates around a controlled rotation *)

Lemma flip_all_flip (qs : list nat) (t i : nat) :
  flip_all qs (flip t i) = flip t (flip_all qs i).
Proof.
  induction qs as [|q qs IH]; [reflexivity|].
  cbn [flip_all fold_right]. fold (flip_all qs (flip t i)).
  fold (flip_all qs i). rewrite IH. apply flip_comm.
Qed.

Lemma flip_all_involutive (qs : list nat) (i : nat) :
  flip_all qs (flip_all qs i) = i.
Proof.
  induction qs as [|q qs IH]; [reflexivity|].
  cbn [flip_all fold_right]. fold (flip_all qs i).
  fold (flip_all qs (flip q (flip_all qs i))).
  now rewrite flip_all_flip, IH, flip_flip.
Qed.

Lemma bit_flip_all (qs : list nat) (i c : nat) :
  bit (flip_all qs i) c = xorb (bit i c) (odd_in qs c).
Proof.
  induction qs as [|q qs IH]; cbn [flip_all odd_in fold_right].
  - now rewrite xorb_false_r.
  - fold (flip_all qs i). fold (odd_in qs c).
    rewrite bit_flip, IH.
    destruct (Nat.eqb q c), (bit i c), (odd_in qs c); reflexivity.
Qed.

Lemma run_x_gates (qs : list nat) (psi : state) :
  run (map X qs) psi = Some (fun i => psi (flip_all qs i)).
Proof.
  revert psi. induction qs as [|q qs IH]; intros psi; [reflexivity|].
  change (run (map X (q :: qs)) psi) with (run (map X qs) (x_gate q psi)).
  rewrite IH. reflexivity.
Qed.

Lemma run_x_mcry_x (qs cs : list nat) (theta : R) (t : nat) (psi : state) :
  odd_in qs t = false ->
  run (map X qs ++ [MCRY theta cs t] ++ map X qs) psi
  = Some (fun i =>
            if forallb (fun c => xorb (bit i c) (odd_in qs c)) cs
            then ry_gate theta t psi i else psi i).
Proof.
  intros Ht. rewrite run_app, run_x_gates, run_app.
  change (run [MCRY theta cs t] ?s) with (Some (mcry_gate theta cs t s)).
  cbv beta iota. rewrite run_x_gates. f_equal.
  apply functional_extensionality. intros i. unfold mcry_gate.
  assert (Ec : forallb (bit (flip_all qs i)) cs
               = forallb (fun c => xorb (bit i c) (odd_in qs c)) cs).
  { clear. induction cs as [|c cs IH]; [reflexivity|].
    cbn [forallb]. now rewrite IH, bit_flip_all. }
  rewrite Ec.
  destruct (forallb (fun c => xorb (bit i c) (odd_in qs c)) cs).
  - unfold ry_gate.
    rewrite bit_flip_all, Ht, xorb_false_r.
    now rewrite <- flip_all_flip, !flip_all_involutive.
  - now rewrite flip_all_involutive.
Qed.

(** ** One entry of the eigenvalue table *)

Lemma below_32 (pat : N) :
  (pat < 32)%N -> In pat (map N.of_nat (seq 0 32)).
Proof.
  intros Hp. apply in_map_iff. exists (N.to_nat pat). split.
  - apply N2Nat.id.
  - apply in_seq. lia.
Qed.

Ltac each_pattern Hp :=
  apply below_32 in Hp; cbn [seq map N.of_nat Pos.of_succ_nat Pos.succ] in Hp;
  repeat (destruct Hp as [<- | Hp]); [.. | destruct Hp].

Lemma flip_zero_bits_appends (pat : N) (circ : circuit) :
  (pat < 32)%N ->
  flip_zero_bits (format_05b pat) circ = Ok (circ ++ map X (zero_qubits pat)).
Proof.
  intros Hp. each_pattern Hp;
    cbn; rewrite <- ?app_assoc; cbn [app]; now rewrite ?app_nil_r.
Qed.

Lemma zero_qubits_not_ancilla (pat : N) : odd_in (zero_qubits pat) 0 = false.
Proof.
  unfold zero_qubits.
  induction (filter (fun k => negb (N.testbit pat (N.of_nat k))) (range 5))
    as [|k l IH]; [reflexivity|].
  cbn [map odd_in fold_right]. fold (odd_in (map (fun k => k + 1) l) 0).
  rewrite IH. now rewrite Nat.add_1_r.
Qed.

Lemma clock_condition (pat : N) (i : nat) :
  (pat < 32)%N ->
  forallb (fun c => xorb (bit i c) (odd_in (zero_qubits pat) c)) clk
  = clock_is pat i.
Proof.
  intros Hp. unfold clock_is.
  each_pattern Hp; cbn;
    destruct (bit i 1), (bit i 2), (bit i 3), (bit i 4), (bit i 5);
    reflexivity.
Qed.

Lemma sin_half_theta (lam : Z) :
  lam <> 0%Z -> sin (2 * asin (1 / IZR lam) / 2) = (1 / IZR lam)%R.
Proof.
  intros Hl.
  replace (2 * asin (1 / IZR lam) / 2)%R with (asin (1 / IZR lam))
    by field.
  assert (Hz : (IZR lam <= -1 \/ 1 <= IZR lam)%R).
  { destruct (Z_lt_le_dec lam 0) as [L | L].
    - left. apply IZR_le. lia.
    - right. apply IZR_le. lia. }
  assert (Hinv : forall y : R, (1 <= y -> 0 < / y <= 1)%R).
  { intros y Hy. split; [apply Rinv_0_lt_compat; lra|].
    rewrite <- Rinv_1. apply Rinv_le_contravar; lra. }
  apply sin_asin. unfold Rdiv. rewrite Rmult_1_l.
  destruct Hz as [Hz | Hz].
  - replace (IZR lam) with (- - IZR lam)%R by ring.
    rewrite Rinv_opp.
    assert (Hy : (1 <= - IZR lam)%R) by lra.
    pose proof (Hinv _ Hy). lra.
  - pose proof (Hinv _ Hz). lra.
Qed.

Lemma rotate_entry_meaning (pat : N) (lam : Z) (circ : circuit) :
  (pat < 32)%N -> lam <> 0%Z ->
  exists c,
    rotate_entry (pat, lam) circ = Ok c
    /\ forall psi s, run circ psi = Some s ->
         run c psi
         = Some (fun i => if clock_is pat i
                          then ry_gate (2 * asin (1 / IZR lam)) 0 s i
                          else s i).
Proof.
  intros Hp Hl.
  exists (circ ++ map X (zero_qubits pat)
            ++ [MCRY (2 * asin (1 / IZR lam)) clk 0]
            ++ map X (zero_qubits pat)).
  split.
  - unfold rotate_entry, theta_of. cbn [fst snd].
    apply Z.eqb_neq in Hl. rewrite Hl. cbn [bind].
    rewrite flip_zero_bits_appends by exact Hp. cbn [bind qubit anc getitem nth_error].
    rewrite flip_zero_bits_appends by exact Hp.
    now rewrite <- !app_assoc.
  - intros psi s Hs. rewrite run_app, Hs.
    rewrite run_x_mcry_x by apply zero_qubits_not_ancilla.
    f_equal. apply functional_extensionality. intros i.
    now rewrite clock_condition.
Qed.

(** X17.  For a table entry [(pat, lam)] with [pat < 32] and [lam <> 0], the
    stage appends its gates without an exception, and the gates act as
    [RY(2 asin(1/lam))] on the ancilla exactly on the basis states whose
    clock register holds [pat]; every other amplitude is left as it is.
    Where the ancilla amplitude was 0 before, the amplitude with ancilla 1 is
    [1/lam] times the one with ancilla 0.  An entry with [lam = 0] raises
    [ZeroDivisionError]. *)
Theorem rotate_entry_rotates_on_pattern (pat : N) (lam : Z) (circ : circuit) :
  (pat < 32)%N ->
  (lam = 0%Z -> rotate_entry (pat, lam) circ = Raise ZeroDivisionError)
  /\ (lam <> 0%Z ->
      exists c,
        rotate_entry (pat, lam) circ = Ok c
        /\ forall psi s, run circ psi = Some s ->
             exists s',
               run c psi = Some s'
               /\ (forall i, clock_is pat i = false -> s' i = s i)
               /\ (forall i, clock_is pat i = true ->
                     s' i = ry_gate (2 * asin (1 / IZR lam)) 0 s i)
               /\ (forall i, clock_is pat i = true -> bit i 0 = true ->
                     s i = czero ->
                     s' i = cscale (1 / IZR lam) (s (flip 0 i)))).
Proof.
  intros Hp. split; [now intros ->|]. intros Hl.
  destruct (rotate_entry_meaning pat lam circ Hp Hl) as (c & Ec & Hrun).
  exists c. split; [exact Ec|]. intros psi s Hs.
  eexists. split; [exact (Hrun psi s Hs)|]. cbv beta.
  split; [intros i ->; reflexivity|].
  split; [intros i ->; reflexivity|].
  intros i -> Hb Hz. unfold ry_gate. rewrite Hb, Hz, sin_half_theta by exact Hl.
  apply complex_eq; cbn; ring.
Qed.

Lemma rotate_entry_rotates_on_pattern_witness :
  (1%Z = 0%Z -> rotate_entry (6%N, 1%Z) [] = Raise ZeroDivisionError)
  /\ (1%Z <> 0%Z ->
      exists c,
        rotate_entry (6%N, 1%Z) [] = Ok c
        /\ forall psi s, run [] psi = Some s ->
             exists s',
               run c psi = Some s'
               /\ (forall i, clock_is 6 i = false -> s' i = s i)
               /\ (forall i, clock_is 6 i = true ->
                     s' i = ry_gate (2 * asin (1 / IZR 1)) 0 s i)
               /\ (forall i, clock_is 6 i = true -> bit i 0 = true ->
                     s i = czero ->
                     s' i = cscale (1 / IZR 1) (s (flip 0 i)))).
Proof.
  apply (rotate_entry_rotates_on_pattern 6%N 1%Z []). reflexivity.
Defined.

Lemma clock_is_flip_ancilla (pat : N) (i : nat) :
  clock_is pat (flip 0 i) = clock_is pat i.
Proof.
  unfold clock_is. cbn [range seq forallb Nat.add].
  now rewrite !bit_flip_other by lia.
Qed.

(** X18.  The eigenvalue-inversion loop over the notebook's table
    [{0b00110:1, 0b10011:3, 0b00000:5}] appends its gates without an
    exception; their combined action rotates the ancilla by
    [2 asin(1/1)], [2 asin(1/3)] or [2 asin(1/5)] on the basis states whose
    clock register holds 00110, 10011 or 00000, and leaves the amplitudes of
    every other clock value unchanged. *)
Theorem eigen_rotation_of_the_table (circ : circuit) :
  exists c,
    for_in phase_to_lambda rotate_entry circ = Ok c
    /\ forall psi s, run circ psi = Some s ->
         exists s',
           run c psi = Some s'
           /\ forall i,
                s' i
                = if clock_is 6 i then ry_gate (2 * asin (1 / 1)) 0 s i
                  else if clock_is 19 i then ry_gate (2 * asin (1 / 3)) 0 s i
                  else if clock_is 0 i then ry_gate (2 * asin (1 / 5)) 0 s i
                  else s i.
Proof.
  destruct (rotate_entry_meaning 6 1 circ) as (c1 & E1 & R1);
    [reflexivity | discriminate |].
  destruct (rotate_entry_meaning 19 3 c1) as (c2 & E2 & R2);
    [reflexivity | discriminate |].
  destruct (rotate_entry_meaning 0 5 c2) as (c3 & E3 & R3);
    [reflexivity | discriminate |].
  exists c3. split.
  - cbn [for_in phase_to_lambda]. rewrite E1. cbn [bind].
    rewrite E2. cbn [bind]. rewrite E3. reflexivity.
  - intros psi s Hs.
    pose proof (R1 psi s Hs) as H1.
    pose proof (R2 psi _ H1) as H2.
    pose proof (R3 psi _ H2) as H3.
    eexists. split; [exact H3|]. intros i. cbv beta.
    unfold ry_gate. rewrite !clock_is_flip_ancilla.
    unfold clock_is. cbn [range seq forallb Nat.add N.of_nat N.testbit
                          Pos.of_succ_nat Pos.succ Pos.testbit Pos.pred_N].
    destruct (bit i 1), (bit i 2), (bit i 3), (bit i 4), (bit i 5);
      reflexivity.
Qed.

(** ** Which basis states the extraction adds up *)

Lemma map_nth_data (psi : state) (l : list nat) :
  Forall (fun k => k < 256) l ->
  map (fun k => nth k (statevector_data psi) czero) l = map psi l.
Proof.
  intros Hl. induction Hl as [|k l Hk _ IH]; [reflexivity|].
  cbn [map]. now rewrite IH, nth_statevector_data.
Qed.

(** X19.  With Qiskit's ordering of the amplitudes, entry [j] of
    [sys_amps] is the sum of the amplitudes of the basis states in which
    qubit 7, that is [sysq[1]], is 1, while qubit 0 (the ancilla) and qubit 1
    ([clk[0]]) hold the two bits of [j]: the sum runs over the qubits 2 to 6
    ([clk[1]] to [clk[4]] and [sysq[0]]).  The slice [tensor[1]] therefore
    fixes [sysq[1]], not the ancilla. *)
Theorem sys_amps_fixes_the_last_qubit (psi : state) (j : nat) :
  j < 4 ->
  nth j (sys_amps (statevector_data psi)) czero
  = csum (map psi
            (indices_with
               (fun k => bit k (nth 1 sysq 0)
                         && Bool.eqb (bit k (nth 0 anc 0)) (bit j 0)
                         && Bool.eqb (bit k (nth 0 clk 0)) (bit j 1)))).
Proof.
  intros Hj.
  rewrite nth_sys_amps;
    [| unfold statevector_data, range; now rewrite length_map, length_seq
     | exact Hj].
  rewrite <- map_map with (f := fun m => 128 + 4 * m + j)
                          (g := fun k => nth k (statevector_data psi) czero).
  rewrite map_nth_data.
  - f_equal. f_equal.
    destruct j as [|[|[|[|j]]]]; try lia; vm_compute; reflexivity.
  - apply Forall_forall. intros k Hk.
    apply in_map_iff in Hk as (m & <- & Hm).
    unfold range in Hm. apply in_seq in Hm. lia.
Qed.

Lemma sys_amps_fixes_the_last_qubit_witness :
  nth 2 (sys_amps (statevector_data (fun _ => czero))) czero
  = csum (map (fun _ => czero)
            (indices_with
               (fun k => bit k (nth 1 sysq 0)
                         && Bool.eqb (bit k (nth 0 anc 0)) (bit 2 0)
                         && Bool.eqb (bit k (nth 0 clk 0)) (bit 2 1)))).
Proof.
  apply (sys_amps_fixes_the_last_qubit (fun _ => czero) 2). lia.
Defined.

(** ** The projection system is consistent by construction *)

Lemma split_maps {A B : Type} (l : list (A * B)) :
  List.split l = (map fst l, map snd l).
Proof.
  induction l as [|[a b] l IH]; [reflexivity|].
  cbn [List.split map fst snd]. now rewrite IH.
Qed.

Section ProjectionFacts.
Context {T : Type} `{Num T}.

Lemma float_of_bool_indicator (c : bool) : indicator (float_of_bool c).
Proof. destruct c; [now left | now right]. Qed.

Lemma projection_row_facts (cs : T * T) (det : nat) :
  length (fst (projection_row cs det)) = 4
  /\ Forall indicator (fst (projection_row cs det))
  /\ snd (projection_row cs det)
     = dotv (fst (projection_row cs det)) (concat phantom2).
Proof.
  unfold projection_row, coords, phantom2, dotv.
  cbn [concat app combine fold_left fst snd length].
  split; [reflexivity|]. split; [|reflexivity].
  repeat (apply Forall_cons; [apply float_of_bool_indicator|]).
  apply Forall_nil.
Qed.

Lemma projection_rows_facts (angles : list (T * T)) :
  let rows :=
    flat_map (fun cs => map (projection_row cs) (range 2)) angles in
  length rows = 2 * length angles
  /\ Forall (fun rv => length (fst rv) = 4 /\ Forall indicator (fst rv)
                       /\ snd rv = dotv (fst rv) (concat phantom2)) rows.
Proof.
  cbv zeta. induction angles as [|cs angles [IHl IHr]].
  - split; [reflexivity | constructor].
  - cbn [flat_map]. split.
    + rewrite length_app, IHl. cbn [range seq map length]. lia.
    + apply Forall_app. split; [|exact IHr].
      constructor; [apply projection_row_facts|].
      constructor; [apply projection_row_facts | constructor].
Qed.

(** X20.  Whatever the angles, the builder returns two rows per angle, each
    row has four entries that are 0 or 1, and each entry of the measurement
    vector is the product of its row with the flattened phantom: the
    phantom solves the system it is measured by. *)
Theorem projection_system_is_consistent (angles : list (T * T)) :
  let A := fst (projection_system angles) in
  let b := snd (projection_system angles) in
  length A = 2 * length angles
  /\ Forall (fun r => length r = 4 /\ Forall indicator r) A
  /\ Forall2 (fun r v => v = dotv r (concat phantom2)) A b.
Proof.
  cbv zeta. unfold projection_system. rewrite split_maps. cbn [fst snd].
  destruct (projection_rows_facts angles) as [Hl Hr]. cbv zeta in Hl, Hr.
  revert Hl Hr.
  generalize (flat_map (fun cs => map (projection_row cs) (range 2)) angles).
  intros rows Hl Hr. split; [now rewrite length_map|].
  clear Hl. induction Hr as [|rv rows (L & I & E) _ [IH1 IH2]].
  - split; constructor.
  - cbn [map]. split; constructor; auto.
Qed.

End ProjectionFacts.

(** ** The binary digits of a pattern *)

Lemma pos_digits_bound (p : positive) :
  Pos.to_nat p < 2 ^ length (pos_digits_lsb p).
Proof.
  induction p as [q IH | q IH |]; cbn [pos_digits_lsb length].
  - rewrite Pos2Nat.inj_xI, Nat.pow_succ_r'. lia.
  - rewrite Pos2Nat.inj_xO, Nat.pow_succ_r'. lia.
  - cbn. lia.
Qed.

(** X21.  [format(pat, '05b')] and the bits of [pat]: below 32 the string
    has five characters and, read from the right, character [k] is ['1']
    exactly when bit [k] of [pat] is set; from 32 on the string is longer
    than five characters (nothing is cut off). *)
Theorem format_05b_digits (pat : N) :
  ((pat < 32)%N ->
   length (format_05b pat) = 5
   /\ forall k, k < 5 ->
        nth k (rev (format_05b pat)) "0"%char
        = if N.testbit pat (N.of_nat k) then "1"%char else "0"%char)
  /\ ((32 <= pat)%N -> 5 < length (format_05b pat)).
Proof.
  split.
  - intros Hp. each_pattern Hp; (split; [reflexivity|]);
      intros k Hk; destruct k as [|[|[|[|[|k]]]]]; try lia; reflexivity.
  - intros Hp. destruct pat as [|p]; [lia|].
    unfold format_05b. rewrite length_app, length_rev, repeat_length.
    pose proof (pos_digits_bound p) as Hb.
    assert (Hge : 32 <= Pos.to_nat p) by lia.
    destruct (Nat.le_gt_cases (length (pos_digits_lsb p)) 5) as [L | L];
      [|lia].
    exfalso.
    assert (2 ^ length (pos_digits_lsb p) <= 2 ^ 5)
      by (apply Nat.pow_le_mono_r; lia).
    cbn in *. lia.
Qed.

(** ** Phase estimation followed by its inverse *)

Lemma qpe_appends (circ : circuit) : qpe circ = Ok (circ ++ gates_of qpe).
Proof.
  unfold gates_of, qpe, qft_dg. cbn -[PI Rdiv pow Ropp].
  now rewrite <- !app_assoc.
Qed.

Lemma inv_qpe_appends (circ : circuit) :
  inv_qpe circ = Ok (circ ++ gates_of inv_qpe).
Proof.
  unfold gates_of, inv_qpe, qft. cbn -[PI Rdiv pow Ropp].
  now rewrite <- !app_assoc.
Qed.

Section WithOperators.
Variable u : nat -> bool -> list nat -> state -> state.

Lemma run_with_none (circ : circuit) :
  fold_left
    (fun acc g =>
       match acc, gate_fun_with u g with
       | Some s, Some f => Some (f s)
       | _, _ => None
       end) circ None = None.
Proof. induction circ as [|g circ IH]; [reflexivity | exact IH]. Qed.

Lemma run_with_app (c1 c2 : circuit) (psi : state) :
  run_with u (c1 ++ c2) psi
  = match run_with u c1 psi with
    | Some s => run_with u c2 s
    | None => None
    end.
Proof.
  unfold run_with. rewrite fold_left_app.
  destruct (fold_left _ c1 (Some psi)); [reflexivity | apply run_with_none].
Qed.

Hypothesis u_inverse :
  forall k qubits s, u k true qubits (u k false qubits s) = s.

Lemma run_qpe_inv_qpe (s : state) :
  run_with u (gates_of qpe ++ gates_of inv_qpe) s
  = run_with u (map H clk) s.
Proof.
  unfold gates_of, qpe, inv_qpe, qft, qft_dg.
  cbn -[PI Rdiv pow Ropp h_gate cp_gate swap_gate].
  rewrite (swap_gate_comm 1 5 2 4) by lia.
  cancel_gates. now rewrite !u_inverse.
Qed.

(** X22.  When each appended [U_ops[k].inverse()] undoes [U_ops[k]],
    [qpe] followed by [inv_qpe] raises nothing and acts on every statevector
    as the five Hadamard gates on the clock register alone: the transforms
    and the controlled operators cancel, the Hadamard layer of [qpe] is not
    undone. *)
Theorem inv_qpe_leaves_the_hadamards (circ : circuit) (psi : state) :
  exists c,
    (c1 <- qpe circ ;; inv_qpe c1) = Ok c
    /\ run_with u c psi = run_with u (circ ++ map H clk) psi.
Proof.
  exists (circ ++ gates_of qpe ++ gates_of inv_qpe). split.
  - rewrite qpe_appends. cbn [bind]. rewrite inv_qpe_appends.
    now rewrite <- app_assoc.
  - rewrite !run_with_app.
    destruct (run_with u circ psi) as [s|]; [|reflexivity].
    apply run_qpe_inv_qpe.
Qed.

End WithOperators.

Lemma inv_qpe_leaves_the_hadamards_witness :
  exists c,
    (c1 <- qpe [] ;; inv_qpe c1) = Ok c
    /\ run_with (fun _ _ _ s => s) c (fun _ => czero)
       = run_with (fun _ _ _ s => s) ([] ++ map H clk) (fun _ => czero).
Proof.
  apply (inv_qpe_leaves_the_hadamards (fun _ _ _ s => s)).
  reflexivity.
Defined.
